(** * pubsub.core.callables: signature introspection of listeners

    A shallow embedding of [src/pubsub/core/callables.py] and the
    properties of its listener classification ([getRawFunction], [getID],
    [ListenerMismatchError]) and signature extraction ([CallArgsInfo],
    [getArgs]).

    Python values are modelled as follows.
    - a [str] is a [string]; an [int] index is a [Z], with Python's negative
      indexing written out in [py_index];
    - a [dict] is an insertion-ordered association list with unique keys
      ([Dict]): the code depends on the order of [keys()], [values()] and
      [items()];
    - a raised exception is the [Raise] branch of [result];
    - the tuple returned by [inspect.getfullargspec] is the record
      [FullArgSpec]; the module only runs its "Python 3.5 or above" branch
      (it unpacks with [[*a, *b]], which older versions do not parse). *)

From Stdlib Require Import List String Ascii ZArith Bool Lia.
Import ListNotations.
Local Open Scope string_scope.
Local Open Scope list_scope.
Local Open Scope Z_scope.

Set Implicit Arguments.

(** ** Values, exceptions *)

(** Values that can appear as a declared default.  [VNoDefault] is an
    instance of the class [NO_DEFAULT]. *)
Inductive PyVal : Type :=
| VNone
| VInt (z : Z)
| VStr (s : string)
| VNoDefault.

(** [AUTO_TOPIC], line 23. *)
Definition AUTO_TOPIC : string :=
  "## your listener wants topic object ## (string unlikely to be used by caller)".

(** [value == AUTO_TOPIC]: equality with a [str]. *)
Definition eq_AUTO_TOPIC (v : PyVal) : bool :=
  match v with
  | VStr s => String.eqb s AUTO_TOPIC
  | _ => false
  end.

(** [isinstance(value, NO_DEFAULT)]. *)
Definition is_NO_DEFAULT (v : PyVal) : bool :=
  match v with
  | VNoDefault => true
  | _ => false
  end.

(** The state of a [ListenerMismatchError] after [__init__]; [module] is
    what [getModule] returned, a module name or [None]. *)
Record ListenerMismatch : Type := mkListenerMismatch {
  lme_msg : string;
  lme_module : option string;
  lme_idStr : string;
  lme_args : list PyVal
}.

Inductive exn : Type :=
| KeyError (key : string)
| IndexError
| ValueError (msg : string)
| ListenerMismatchError (e : ListenerMismatch).

Inductive result (A : Type) : Type :=
| Ok (a : A)
| Raise (e : exn).
Arguments Ok {A} a.
Arguments Raise {A} e.

Definition bind {A B : Type} (r : result A) (k : A -> result B) : result B :=
  match r with
  | Ok a => k a
  | Raise e => Raise e
  end.

Notation "x <- r ;; k" := (bind r (fun x => k))
  (at level 61, r at next level, right associativity).

(** [l[k]] on a tuple: a negative index counts from the end, anything out of
    range raises [IndexError]. *)
Definition py_index {A : Type} (l : list A) (k : Z) : result A :=
  let n := Z.of_nat (List.length l) in
  let j := if k <? 0 then k + n else k in
  if (j <? 0) || (n <=? j) then Raise IndexError
  else match nth_error l (Z.to_nat j) with
       | Some a => Ok a
       | None => Raise IndexError
       end.

(** ** Insertion-ordered dictionaries with [str] keys *)

Module Dict.

Definition t : Type := list (string * PyVal).

Definition keys (d : t) : list string := map fst d.
Definition values (d : t) : list PyVal := map snd d.

(** [k in d] *)
Definition mem (k : string) (d : t) : bool :=
  existsb (fun kv => String.eqb k (fst kv)) d.

(** [d[k]] *)
Fixpoint get (d : t) (k : string) : result PyVal :=
  match d with
  | [] => Raise (KeyError k)
  | (k', v) :: d' => if String.eqb k k' then Ok v else get d' k
  end.

(** [d[k] = v]: an existing key keeps its place. *)
Fixpoint set (d : t) (k : string) (v : PyVal) : t :=
  match d with
  | [] => [(k, v)]
  | (k', v') :: d' =>
      if String.eqb k k' then (k', v) :: d' else (k', v') :: set d' k v
  end.

(** The entries left by [del d[k]] when [k] is a key. *)
Fixpoint remove (d : t) (k : string) : t :=
  match d with
  | [] => []
  | (k', v') :: d' =>
      if String.eqb k k' then d' else (k', v') :: remove d' k
  end.

(** [del d[k]] *)
Definition del (d : t) (k : string) : result t :=
  if mem k d then Ok (remove d k) else Raise (KeyError k).

(** [{**a, **b}] *)
Definition merge (a b : t) : t :=
  fold_left (fun acc kv => set acc (fst kv) (snd kv)) b a.

End Dict.

(** ** Callables and their static parameter metadata *)

(** What [getfullargspec(func)] returns (annotations are not used). *)
Record FullArgSpec : Type := mkFullArgSpec {
  args : list string;
  varargs : option string;
  varkw : option string;
  defaults : option (list PyVal);
  kwonlyargs : list string;
  kwonlydefaults : option Dict.t
}.

(** A function object: [__name__], the value of [__module__] (a function
    always has the attribute; it is a module name, or [None] when the
    function has no module), and its signature. *)
Record PyFunc : Type := mkPyFunc {
  f_name : string;
  f_module : option string;
  f_spec : FullArgSpec
}.

(** An instance of a class: the name of its class; its [__module__]
    attribute, which is missing (outer [None]: instances of builtin types
    have none) or holds a module name or [None]; and the [__call__] its
    class defines as an ordinary method, if any (a [__call__] that is a
    static method or a builtin slot is outside this model). *)
Record PyInst : Type := mkPyInst {
  cls_name : string;
  inst_module : option (option string);
  call_op : option PyFunc
}.

Inductive PyObj : Type :=
| OFunction (f : PyFunc)
| OMethod (self : PyInst) (func : PyFunc)
| OInstance (o : PyInst).

Definition isfunction (c : PyObj) : bool :=
  match c with OFunction _ => true | _ => false end.

Definition ismethod (c : PyObj) : bool :=
  match c with OMethod _ _ => true | _ => false end.

(** [type(c).__name__] *)
Definition type_name (c : PyObj) : string :=
  match c with
  | OFunction _ => "function"
  | OMethod _ _ => "method"
  | OInstance o => cls_name o
  end.

(** [obj.__module__] when [hasattr(obj, '__module__')]: [None] when the
    attribute is missing, [Some v] when it holds [v], where [v] is a module
    name or Python's [None]. *)
Definition module_attr (c : PyObj) : option (option string) :=
  match c with
  | OFunction f => Some (f_module f)
  | OMethod _ f => Some (f_module f)
  | OInstance o => inst_module o
  end.

(** [hasattr(obj, '__module__')] *)
Definition hasattr_module (obj : PyObj) : bool :=
  match module_attr obj with
  | Some _ => true
  | None => false
  end.

(** [hasattr(c, '__call__')] *)
Definition hasattr_call (c : PyObj) : bool :=
  match c with
  | OInstance o => match call_op o with Some _ => true | None => false end
  | _ => true
  end.

(** [inspect.getfullargspec]: a bound method reports the parameters of its
    function, receiver included. *)
Definition getfullargspec (c : PyObj) : FullArgSpec :=
  match c with
  | OFunction f => f_spec f
  | OMethod _ f => f_spec f
  | OInstance o =>
      match call_op o with
      | Some f => f_spec f
      | None => mkFullArgSpec [] None None None [] None
      end
  end.

(** ** [getModule], [getID], [getRawFunction] *)

(** The one-character string holding a double quote. *)
Definition dquote : string := String "034" EmptyString.

(** [getModule] returns the attribute as it is, [None] included, and the
    string [__main__] only when the attribute is missing. *)
Definition getModule (obj : PyObj) : option string :=
  match module_attr obj with
  | Some module => module
  | None => Some "__main__"
  end.

(** ['%s' % module] for a module name or [None]. *)
Definition str_of_module (module : option string) : string :=
  match module with
  | Some m => m
  | None => "None"
  end.

Definition getID (callable_ : PyObj) : string * option string :=
  match callable_ with
  | OMethod self func =>
      ((cls_name self ++ "." ++ f_name func)%string, getModule (OInstance self))
  | OFunction f => (f_name f, getModule callable_)
  | OInstance o => (cls_name o, getModule callable_)
  end.

Definition getRawFunction (callable_ : PyObj) : result (PyObj * Z) :=
  match callable_ with
  | OFunction _ => Ok (callable_, 0)
  | OMethod _ _ => Ok (callable_, 1)
  | OInstance o =>
      match call_op o with
      | Some f => Ok (OMethod o f, 1)
      | None =>
          Raise (ValueError ("type " ++ dquote ++ type_name callable_ ++ dquote
                             ++ " not supported")%string)
      end
  end.

(** ** [ListenerMismatchError] *)

(** [ListenerMismatchError.__init__(self, msg, listener, *args)] *)
Definition ListenerMismatchError_init (msg : string) (listener : PyObj)
    (extra : list PyVal) : ListenerMismatch :=
  let '(idStr, module) := getID listener in
  let msg := ("Listener " ++ dquote ++ idStr ++ dquote ++ " (from module "
              ++ dquote ++ str_of_module module ++ dquote ++ ") inadequate: "
              ++ msg)%string in
  mkListenerMismatch msg module idStr extra.

(** [ListenerMismatchError.__str__] *)
Definition ListenerMismatchError_str (e : ListenerMismatch) : string :=
  lme_msg e.

(** [str(exc)] for the exceptions of this module. *)
Definition exn_str (e : exn) : string :=
  match e with
  | KeyError k => ("'" ++ k ++ "'")%string
  | IndexError => "tuple index out of range"
  | ValueError msg => msg
  | ListenerMismatchError e => ListenerMismatchError_str e
  end.

(** ** [CallArgsInfo] *)

Record CallArgsInfo : Type := mkCallArgsInfo {
  allArgs : Dict.t;
  allKwargs : Dict.t;
  acceptsAllKwargs : bool;
  acceptsAllUnnamedArgs : bool;
  allParams : list string;
  numRequired : Z;
  autoTopicArgName : option string
}.

(** [len(args) - len(argsDefaults) - 1], line 162. *)
Definition argsDefaults_startsAt (args : list string) (argsDefaults : list PyVal) : Z :=
  Z.of_nat (List.length args) - Z.of_nat (List.length argsDefaults) - 1.

(** The loop of lines 163-170 from index [i] on; [vars] is what is left of
    [args]. *)
Fixpoint fill_allArgs (all_args : list string) (argsDefaults : option (list PyVal))
    (firstArgIdx : Z) (vars : list string) (i : Z) (d : Dict.t) : result Dict.t :=
  match vars with
  | [] => Ok d
  | variable :: rest =>
      if (i =? 0) && (firstArgIdx >? 0) then
        fill_allArgs all_args argsDefaults firstArgIdx rest (i + 1) d
      else
        match argsDefaults with
        | None =>
            fill_allArgs all_args argsDefaults firstArgIdx rest (i + 1)
              (Dict.set d variable VNoDefault)
        | Some ds =>
            let startsAt := argsDefaults_startsAt all_args ds in
            if i <? startsAt then
              fill_allArgs all_args argsDefaults firstArgIdx rest (i + 1)
                (Dict.set d variable VNoDefault)
            else
              v <- py_index ds (i - startsAt - 1) ;;
              fill_allArgs all_args argsDefaults firstArgIdx rest (i + 1)
                (Dict.set d variable v)
        end
  end.

(** The loop of lines 173-177. *)
Fixpoint fill_allKwargs (kwargsDefaults : option Dict.t) (kwargs : list string)
    (d : Dict.t) : result Dict.t :=
  match kwargs with
  | [] => Ok d
  | variable :: rest =>
      match kwargsDefaults with
      | None => fill_allKwargs kwargsDefaults rest (Dict.set d variable VNoDefault)
      | Some kd =>
          if negb (Dict.mem variable kd) then
            fill_allKwargs kwargsDefaults rest (Dict.set d variable VNoDefault)
          else
            v <- Dict.get kd variable ;;
            fill_allKwargs kwargsDefaults rest (Dict.set d variable v)
      end
  end.

(** The loop of lines 184-188 over the two dictionaries. *)
Fixpoint drop_ignored (ignoreArgs : list string) (a k : Dict.t) : result (Dict.t * Dict.t) :=
  match ignoreArgs with
  | [] => Ok (a, k)
  | var_name :: rest =>
      if Dict.mem var_name a then
        a' <- Dict.del a var_name ;; drop_ignored rest a' k
      else if Dict.mem var_name k then
        k' <- Dict.del k var_name ;; drop_ignored rest a k'
      else drop_ignored rest a k
  end.

(** [name in ignoreArgs] for a name that may be [None]; [ignoreArgs] holds
    strings only. *)
Definition name_in (name : option string) (ignoreArgs : list string) : bool :=
  match name with
  | Some n => existsb (String.eqb n) ignoreArgs
  | None => false
  end.

(** The truth value of [ignoreArgs] in [if ignoreArgs:]. *)
Definition truthy (ignoreArgs : option (list string)) : bool :=
  match ignoreArgs with
  | None | Some [] => false
  | Some (_ :: _) => true
  end.

(** [_combinedDict] *)
Definition _combinedDict (a k : Dict.t) : Dict.t := Dict.merge a k.

(** [__setupAutoTopic]: the name found, if any, and [allArgs] afterwards. *)
Fixpoint setupAutoTopic_scan (items : Dict.t) (a : Dict.t)
  : result (option string * Dict.t) :=
  match items with
  | [] => Ok (None, a)
  | (variable, value) :: rest =>
      if eq_AUTO_TOPIC value then
        a' <- Dict.del a variable ;; Ok (Some variable, a')
      else setupAutoTopic_scan rest a
  end.

Definition __setupAutoTopic (a k : Dict.t) : result (option string * Dict.t) :=
  setupAutoTopic_scan (_combinedDict a k) a.

(** [CallArgsInfo.__init__(self, func, firstArgIdx, ignoreArgs)], with
    [spec = getfullargspec(func)]. *)
Definition CallArgsInfo_init (spec : FullArgSpec) (firstArgIdx : Z)
    (ignoreArgs : option (list string)) : result CallArgsInfo :=
  a0 <- fill_allArgs (args spec) (defaults spec) firstArgIdx (args spec) 0 [] ;;
  k0 <- fill_allKwargs (kwonlydefaults spec) (kwonlyargs spec) [] ;;
  let acceptsKw0 := match varkw spec with Some _ => true | None => false end in
  let acceptsUn0 := match varargs spec with Some _ => true | None => false end in
  let params := Dict.keys a0 ++ Dict.keys k0 in
  st <- (if truthy ignoreArgs then
           let ign := match ignoreArgs with Some l => l | None => [] end in
           ak <- drop_ignored ign a0 k0 ;;
           Ok (fst ak, snd ak,
               if name_in (varkw spec) ign then false else acceptsKw0,
               if name_in (varargs spec) ign then false else acceptsUn0)
         else Ok (a0, k0, acceptsKw0, acceptsUn0)) ;;
  let '(a1, k1, acceptsKw, acceptsUn) := st in
  let n := Z.of_nat (List.length
             (filter is_NO_DEFAULT (Dict.values a1 ++ Dict.values k1))) in
  r <- __setupAutoTopic a1 k1 ;;
  Ok (mkCallArgsInfo (snd r) k1 acceptsKw acceptsUn params n (fst r)).

Definition getAllArgs (info : CallArgsInfo) : list string := allParams info.

Definition getOptionalArgs (info : CallArgsInfo) : list string :=
  map fst (filter (fun kv => negb (is_NO_DEFAULT (snd kv)))
             (allArgs info ++ allKwargs info)).

Definition getRequiredArgs (info : CallArgsInfo) : list string :=
  map fst (filter (fun kv => is_NO_DEFAULT (snd kv))
             (allArgs info ++ allKwargs info)).

(** [CallArgsInfo._versionCheck], on [sys.version_info[0]] and
    [sys.version_info[1]]. *)
Definition _versionCheck (major minor : Z) : bool :=
  (major >? 3) || ((major =? 3) && (minor >? 4)).

(** ** [getArgs] *)

Definition getArgs (callable_ : PyObj) (ignoreArgs : option (list string))
  : result CallArgsInfo :=
  match getRawFunction callable_ with
  | Ok (func, firstArgIdx) =>
      CallArgsInfo_init (getfullargspec func) firstArgIdx ignoreArgs
  | Raise (ValueError msg) =>
      Raise (ListenerMismatchError
               (ListenerMismatchError_init (exn_str (ValueError msg)) callable_ []))
  | Raise e => Raise e
  end.

(** ** Concrete listeners *)

Definition plain (a : list string) (ds : option (list PyVal)) : FullArgSpec :=
  mkFullArgSpec a None None ds [] None.

(** [def f(a, b=1, *, c, d=2)] *)
Definition spec_f : FullArgSpec :=
  mkFullArgSpec ["a"; "b"] None None (Some [VInt 1]) ["c"; "d"]
                (Some [("d", VInt 2)]).

(** [def __call__(self, x, y=AUTO_TOPIC)] *)
Definition spec_call_x_y : FullArgSpec :=
  plain ["self"; "x"; "y"] (Some [VStr AUTO_TOPIC]).

(** [def on_msg(self, a, b)], the function of a method [Handler.on_msg] *)
Definition spec_on_msg : FullArgSpec := plain ["self"; "a"; "b"] None.

(** [def g( *, t=AUTO_TOPIC)] *)
Definition spec_kw_topic : FullArgSpec :=
  mkFullArgSpec [] None None None ["t"] (Some [("t", VStr AUTO_TOPIC)]).

(** [def __call__(self, y=AUTO_TOPIC)] *)
Definition spec_call_y : FullArgSpec :=
  plain ["self"; "y"] (Some [VStr AUTO_TOPIC]).

(** [def h(a, b, c, t=AUTO_TOPIC, u=None)] *)
Definition spec_h : FullArgSpec :=
  plain ["a"; "b"; "c"; "t"; "u"] (Some [VStr AUTO_TOPIC; VNone]).

(** [h] once [a] is excluded. *)
Definition h_info : CallArgsInfo :=
  mkCallArgsInfo [("b", VNoDefault); ("c", VNone); ("u", VNone)] []
    false false ["a"; "b"; "c"; "t"; "u"] 1 (Some "t").

(** A class [Handler] of module [app] whose instances are called through
    [__call__(self, a, b)]. *)
Definition handler_call : PyFunc := mkPyFunc "__call__" (Some "app") spec_on_msg.

Definition handler : PyInst :=
  mkPyInst "Handler" (Some (Some "app")) (Some handler_call).

Definition handler_info : CallArgsInfo :=
  mkCallArgsInfo [("a", VNoDefault); ("b", VNoDefault)] [] false false
    ["a"; "b"] 2 None.

(** [Handler.on_msg(self, a, b)] once [b] is excluded. *)
Definition on_msg_info : CallArgsInfo :=
  mkCallArgsInfo [("a", VNoDefault)] [] false false ["a"; "b"] 1 None.

(** The integer [5]: an instance of the builtin type [int]. *)
Definition builtin_value : PyObj := OInstance (mkPyInst "int" None None).

(** An instance of a class [Plain] of module [app] without [__call__]. *)
Definition plain_value : PyObj :=
  OInstance (mkPyInst "Plain" (Some (Some "app")) None).

(** A function without module: [exec("def nomod(): pass", {})] defines it
    with [__module__] set to [None]. *)
Definition nomod : PyObj := OFunction (mkPyFunc "nomod" None (plain [] None)).

(** ** Vocabulary of the statements *)

(** No two parameters of a signature share a name (Python rejects a
    definition that repeats one). *)
Definition distinct_names (spec : FullArgSpec) : Prop :=
  NoDup (args spec ++ kwonlyargs spec).

(** The ordinary parameters left once the receiver is skipped. *)
Definition real_args (spec : FullArgSpec) (firstArgIdx : Z) : list string :=
  if firstArgIdx >? 0 then tl (args spec) else args spec.

(** The ordinary parameters that declare a default, each with its default:
    the last D of the N ordinary parameters, in matching order. *)
Definition declared_defaults (spec : FullArgSpec) : list (string * PyVal) :=
  match defaults spec with
  | None => []
  | Some ds =>
      combine (skipn (List.length (args spec) - List.length ds) (args spec)) ds
  end.

(** [t] occurs in [s]. *)
Definition occurs_in (t s : string) : Prop :=
  exists p q : string, s = (p ++ t ++ q)%string.

(** The rendering the specification asks for: [Listener "<identifier>"
    (from module "<module>") inadequate: <explanation>]. *)
Definition rendering (identifier module explanation : string) : string :=
  ("Listener " ++ dquote ++ identifier ++ dquote ++ " (from module " ++ dquote
   ++ module ++ dquote ++ ") inadequate: " ++ explanation)%string.

(** The object whose [__module__] names the module of a listener: the
    receiver for a bound method, the listener itself otherwise. *)
Definition module_owner (listener : PyObj) : PyObj :=
  match listener with
  | OMethod self _ => OInstance self
  | _ => listener
  end.

(** [n] is not an entry of the exclusion list. *)
Definition not_excluded (ign : list string) (n : string) : bool :=
  negb (existsb (String.eqb n) ign).

(** The entries the exclusion list leaves in a dictionary. *)
Definition keep (ign : list string) (e : string * PyVal) : bool :=
  not_excluded ign (fst e).

(** [defaults] as [getfullargspec] returns it: [None], or a non-empty tuple
    no longer than [args]. *)
Definition defaults_ok (spec : FullArgSpec) : Prop :=
  forall ds, defaults spec = Some ds ->
             (1 <= List.length ds <= List.length (args spec))%nat.

(** [def k(a, *rest, flag=None, **extra)] *)
Definition spec_k : FullArgSpec :=
  mkFullArgSpec ["a"] (Some "rest") (Some "extra") None ["flag"]
                (Some [("flag", VNone)]).

(** [def plain_listener(a, b, *, c)] *)
Definition spec_abc : FullArgSpec :=
  mkFullArgSpec ["a"; "b"] None None None ["c"] None.

(** The message of the [ValueError] raised by [getRawFunction]. *)
Definition not_supported (c : PyObj) : string :=
  ("type " ++ dquote ++ type_name c ++ dquote ++ " not supported")%string.

(** ** The construction, step by step *)

(** The exclusion list as iterated; [None] and the empty list behave alike. *)
Definition ign_list (ignoreArgs : option (list string)) : list string :=
  match ignoreArgs with
  | Some l => l
  | None => []
  end.

(** The parameters visited by the loop that starts at index [i]. *)
Definition effective (firstArgIdx i : Z) (vars : list string) : list string :=
  if (i =? 0) && (firstArgIdx >? 0) then tl vars else vars.

(** The value the loop of lines 163-170 stores at index [i], with the tuple
    index resolved: the slot just before the defaulted parameters reads
    [argsDefaults[-1]]. *)
Definition value_at (all_args : list string) (argsDefaults : option (list PyVal))
    (i : Z) : PyVal :=
  match argsDefaults with
  | None => VNoDefault
  | Some ds =>
      let startsAt := argsDefaults_startsAt all_args ds in
      if i <? startsAt then VNoDefault
      else if i =? startsAt then last ds VNone
      else nth (Z.to_nat (i - startsAt - 1)) ds VNone
  end.

Fixpoint entries_from (f : Z -> PyVal) (vars : list string) (i : Z)
  : list (string * PyVal) :=
  match vars with
  | [] => []
  | v :: rest => (v, f i) :: entries_from f rest (i + 1)
  end.

(** The value the loop of lines 173-177 stores for a keyword-only name. *)
Definition kw_value (kwargsDefaults : option Dict.t) (variable : string) : PyVal :=
  match kwargsDefaults with
  | None => VNoDefault
  | Some kd =>
      match Dict.get kd variable with
      | Ok v => v
      | Raise _ => VNoDefault
      end
  end.

Definition set_all (es : list (string * PyVal)) (d : Dict.t) : Dict.t :=
  fold_left (fun acc e => Dict.set acc (fst e) (snd e)) es d.

(** The index the first loop starts storing at. *)
Definition first_index (off : Z) : nat := if off >? 0 then 1%nat else 0%nat.

(** The entries written by the first loop. *)
Definition stored_args (spec : FullArgSpec) (off : Z) : Dict.t :=
  entries_from (value_at (args spec) (defaults spec)) (real_args spec off)
    (Z.of_nat (first_index off)).

(** Everything a successful construction went through. *)
Record built (spec : FullArgSpec) (off : Z) (ign : list string)
    (info : CallArgsInfo) (a0 k0 a1 k1 : Dict.t) : Prop := mkBuilt {
  b_fill : fill_allArgs (args spec) (defaults spec) off (args spec) 0 [] = Ok a0;
  b_kw : k0 = set_all (map (fun n => (n, kw_value (kwonlydefaults spec) n))
                         (kwonlyargs spec)) [];
  b_drop : drop_ignored ign a0 k0 = Ok (a1, k1);
  b_scan : setupAutoTopic_scan (Dict.merge a1 k1) a1
           = Ok (autoTopicArgName info, allArgs info);
  b_kwargs : allKwargs info = k1;
  b_params : allParams info = Dict.keys a0 ++ Dict.keys k0;
  b_num : numRequired info
          = Z.of_nat (List.length
              (filter is_NO_DEFAULT (Dict.values a1 ++ Dict.values k1)));
  b_a0_keys : forall x, In x (Dict.keys a0) -> In x (real_args spec off);
  b_a0_exact : NoDup (args spec) -> Dict.keys a0 = real_args spec off;
  b_k0_keys : forall x, In x (Dict.keys k0) -> In x (kwonlyargs spec);
  b_k0_exact : NoDup (kwonlyargs spec) ->
               k0 = map (fun n => (n, kw_value (kwonlydefaults spec) n))
                      (kwonlyargs spec);
  b_a1_incl : forall e, In e a1 -> In e a0;
  b_k1_incl : forall e, In e k1 -> In e k0;
  b_a1_NoDup : NoDup (Dict.keys a1);
  b_k1_NoDup : NoDup (Dict.keys k1);
  b_a1_keep : forall n w, ~ In n ign -> In (n, w) a0 -> In (n, w) a1;
  b_k1_keep : forall n w, ~ In n ign -> In (n, w) k0 -> In (n, w) k1
}.

(** ** Facts about dictionaries *)

Module DictFacts.

Lemma mem_In (k : string) (d : Dict.t) :
  Dict.mem k d = true <-> In k (Dict.keys d).
Proof.
  unfold Dict.mem, Dict.keys. rewrite existsb_exists, in_map_iff. split.
  - intros [kv [Hin Heq]]. apply String.eqb_eq in Heq. exists kv. auto.
  - intros [kv [Heq Hin]]. exists kv. split; auto. apply String.eqb_eq. auto.
Qed.

Lemma mem_false (k : string) (d : Dict.t) :
  Dict.mem k d = false <-> ~ In k (Dict.keys d).
Proof.
  rewrite <- mem_In. destruct (Dict.mem k d); split; congruence.
Qed.

Lemma set_fresh (d : Dict.t) (k : string) (v : PyVal) :
  ~ In k (Dict.keys d) -> Dict.set d k v = d ++ [(k, v)].
Proof.
  induction d as [|[k' v'] d IH]; simpl; intros Hn; [reflexivity|].
  destruct (String.eqb_spec k k') as [->|Hne].
  - exfalso. apply Hn. now left.
  - rewrite IH; auto.
Qed.

Lemma set_keys_incl (d : Dict.t) (k : string) (v : PyVal) (x : string) :
  In x (Dict.keys (Dict.set d k v)) -> x = k \/ In x (Dict.keys d).
Proof.
  induction d as [|[k' v'] d IH]; simpl.
  - intros [H|[]]. now left.
  - destruct (String.eqb_spec k k') as [->|Hne]; simpl.
    + intros [H|H]; auto.
    + intros [H|H]; auto. destruct (IH H); auto.
Qed.

Lemma set_keys_NoDup (d : Dict.t) (k : string) (v : PyVal) :
  NoDup (Dict.keys d) -> NoDup (Dict.keys (Dict.set d k v)).
Proof.
  induction d as [|[k' v'] d IH]; simpl; intros Hnd.
  - constructor; [intros []|constructor].
  - inversion Hnd as [|? ? Hnotin Hnd']; subst.
    destruct (String.eqb_spec k k') as [->|Hne]; simpl.
    + constructor; auto.
    + constructor; auto. intros Hin.
      destruct (set_keys_incl _ _ _ _ Hin); [congruence|auto].
Qed.

Lemma remove_incl (d : Dict.t) (k : string) (e : string * PyVal) :
  In e (Dict.remove d k) -> In e d.
Proof.
  induction d as [|[k' v'] d IH]; simpl; [auto|].
  destruct (String.eqb k k'); simpl; intuition.
Qed.

Lemma remove_keys_incl (d : Dict.t) (k x : string) :
  In x (Dict.keys (Dict.remove d k)) -> In x (Dict.keys d).
Proof.
  unfold Dict.keys. rewrite !in_map_iff. intros [e [He Hin]].
  exists e. split; auto. eapply remove_incl; eauto.
Qed.

Lemma remove_keys_NoDup (d : Dict.t) (k : string) :
  NoDup (Dict.keys d) -> NoDup (Dict.keys (Dict.remove d k)).
Proof.
  induction d as [|[k' v'] d IH]; simpl; intros Hnd; [constructor|].
  inversion Hnd as [|? ? Hnotin Hnd']; subst.
  destruct (String.eqb k k'); simpl; auto.
  constructor; auto. intros Hin. apply Hnotin.
  eapply remove_keys_incl; eauto.
Qed.

Lemma remove_absent (d : Dict.t) (k : string) :
  ~ In k (Dict.keys d) -> Dict.remove d k = d.
Proof.
  induction d as [|[k' v'] d IH]; simpl; intros Hn; [reflexivity|].
  destruct (String.eqb_spec k k') as [->|Hne].
  - exfalso. apply Hn. now left.
  - rewrite IH; auto.
Qed.

Lemma remove_gone (d : Dict.t) (k : string) :
  NoDup (Dict.keys d) -> ~ In k (Dict.keys (Dict.remove d k)).
Proof.
  induction d as [|[k' v'] d IH]; simpl; intros Hnd; [auto|].
  inversion Hnd as [|? ? Hnotin Hnd']; subst.
  destruct (String.eqb_spec k k') as [->|Hne]; simpl; auto.
  intros [H|H]; [congruence|]. now apply IH.
Qed.

Lemma remove_other (d : Dict.t) (k n : string) (w : PyVal) :
  In (n, w) d -> n <> k -> In (n, w) (Dict.remove d k).
Proof.
  induction d as [|[k' v'] d IH]; simpl; [auto|].
  intros [H|H] Hne.
  - inversion H; subst. destruct (String.eqb_spec k n); [congruence|now left].
  - destruct (String.eqb_spec k k'); auto. right. auto.
Qed.

(** Deleting an entry that a filter rejects does not change what the
    filter keeps. *)
Lemma filter_remove (P : string * PyVal -> bool) (d : Dict.t) (k : string) (v : PyVal) :
  NoDup (Dict.keys d) -> In (k, v) d -> P (k, v) = false ->
  filter P (Dict.remove d k) = filter P d.
Proof.
  induction d as [|[k' v'] d IH]; simpl; intros Hnd Hin HP; [reflexivity|].
  inversion Hnd as [|? ? Hnotin Hnd']; subst.
  destruct (String.eqb_spec k k') as [->|Hne].
  - destruct Hin as [H|H].
    + inversion H; subst. now rewrite HP.
    + exfalso. apply Hnotin. unfold Dict.keys. apply in_map_iff.
      exists (k', v). auto.
  - destruct Hin as [H|H]; [congruence|].
    simpl. rewrite IH; auto.
Qed.

Lemma merge_disjoint (a k : Dict.t) :
  NoDup (Dict.keys k) ->
  (forall x, In x (Dict.keys k) -> ~ In x (Dict.keys a)) ->
  Dict.merge a k = a ++ k.
Proof.
  unfold Dict.merge. revert a.
  induction k as [|[n w] k IH]; simpl; intros a Hnd Hdis.
  - now rewrite app_nil_r.
  - inversion Hnd as [|? ? Hnotin Hnd']; subst.
    rewrite set_fresh by (apply Hdis; now left).
    rewrite IH; auto.
    + now rewrite <- app_assoc.
    + intros x Hx Hin. unfold Dict.keys in Hin. rewrite map_app in Hin.
      apply in_app_or in Hin. destruct Hin as [Hin|[Hin|[]]].
      * apply (Hdis x); auto.
      * simpl in Hin. subst. auto.
Qed.

End DictFacts.

(** ** Facts about the steps of the construction *)

Module Steps.
Import DictFacts.

Lemma last_nth_error {A : Type} (l : list A) (x : A) :
  l <> [] -> nth_error l (List.length l - 1) = Some (last l x).
Proof.
  induction l as [|a l IH]; [congruence|]. intros _.
  destruct l as [|b l]; [reflexivity|].
  change (last (a :: b :: l) x) with (last (b :: l) x).
  rewrite <- IH by congruence. simpl. now rewrite Nat.sub_0_r.
Qed.

Lemma py_index_nonneg {A : Type} (l : list A) (k : Z) (x : A) :
  0 <= k < Z.of_nat (List.length l) ->
  py_index l k = Ok (nth (Z.to_nat k) l x).
Proof.
  intros Hk. unfold py_index.
  destruct (Z.ltb_spec k 0) as [|_]; [lia|]. cbv zeta.
  destruct (Z.ltb_spec k 0) as [|_]; [lia|].
  destruct (Z.leb_spec (Z.of_nat (List.length l)) k) as [|_]; [lia|].
  cbv beta iota delta [orb].
  rewrite (nth_error_nth' l x) by lia. reflexivity.
Qed.

Lemma py_index_last {A : Type} (l : list A) (x : A) :
  l <> [] -> py_index l (-1) = Ok (last l x).
Proof.
  intros Hne. unfold py_index.
  assert (Hlen : (1 <= List.length l)%nat).
  { destruct l; simpl; [congruence|lia]. }
  change (-1 <? 0) with true. cbv zeta iota.
  destruct (Z.ltb_spec (-1 + Z.of_nat (List.length l)) 0) as [|_]; [lia|].
  destruct (Z.leb_spec (Z.of_nat (List.length l)) (-1 + Z.of_nat (List.length l)))
    as [|_]; [lia|].
  cbv beta iota delta [orb].
  replace (Z.to_nat (-1 + Z.of_nat (List.length l))) with (List.length l - 1)%nat by lia.
  rewrite (last_nth_error x Hne). reflexivity.
Qed.

Lemma py_index_value (all_args : list string) (ds : list PyVal) (i : Z) :
  (1 <= List.length ds)%nat ->
  argsDefaults_startsAt all_args ds <= i < Z.of_nat (List.length all_args) ->
  py_index ds (i - argsDefaults_startsAt all_args ds - 1)
  = Ok (value_at all_args (Some ds) i).
Proof.
  intros HD Hi. unfold value_at.
  assert (HS : argsDefaults_startsAt all_args ds
               = Z.of_nat (List.length all_args) - Z.of_nat (List.length ds) - 1)
    by reflexivity.
  cbv zeta.
  destruct (Z.ltb_spec i (argsDefaults_startsAt all_args ds)) as [Hlt|_]; [lia|].
  destruct (Z.eqb_spec i (argsDefaults_startsAt all_args ds)) as [->|Hne].
  - replace (argsDefaults_startsAt all_args ds
             - argsDefaults_startsAt all_args ds - 1) with (-1) by lia.
    apply py_index_last. destruct ds; simpl in *; [lia|congruence].
  - apply py_index_nonneg. lia.
Qed.

Lemma fill_allArgs_skip (all_args : list string) (dso : option (list PyVal))
    (off : Z) (r : string) (rest : list string) (d : Dict.t) :
  off > 0 ->
  fill_allArgs all_args dso off (r :: rest) 0 d
  = fill_allArgs all_args dso off rest 1 d.
Proof.
  intros Hoff. simpl.
  destruct (Z.gtb_spec off 0); [reflexivity|lia].
Qed.

(** Away from the receiver, the loop stores [value_at] for every name. *)
Lemma fill_allArgs_run (all_args : list string) (dso : option (list PyVal))
    (off : Z) (vars : list string) :
  forall (i : Z) (d : Dict.t),
    (i =? 0) && (off >? 0) = false -> 0 <= i ->
    (forall ds, dso = Some ds ->
       (1 <= List.length ds)%nat /\
       i + Z.of_nat (List.length vars) <= Z.of_nat (List.length all_args)) ->
    fill_allArgs all_args dso off vars i d
    = Ok (set_all (entries_from (value_at all_args dso) vars i) d).
Proof.
  induction vars as [|v rest IH]; intros i d Hns Hi Hwf; [reflexivity|].
  assert (Hnext : (i + 1 =? 0) && (off >? 0) = false).
  { destruct (Z.eqb_spec (i + 1) 0); [lia|reflexivity]. }
  simpl fill_allArgs. rewrite Hns.
  destruct dso as [ds|].
  - destruct (Hwf ds eq_refl) as [HD HN]. simpl List.length in HN.
    assert (Hrest : forall ds0, Some ds = Some ds0 ->
              (1 <= List.length ds0)%nat /\
              i + 1 + Z.of_nat (List.length rest) <= Z.of_nat (List.length all_args)).
    { intros ds0 E. inversion E; subst. split; [auto|lia]. }
    cbv zeta.
    destruct (Z.ltb_spec i (argsDefaults_startsAt all_args ds)) as [Hlt|Hge].
    + rewrite IH by (auto; lia). simpl. unfold value_at at 2.
      destruct (Z.ltb_spec i (argsDefaults_startsAt all_args ds)); [reflexivity|lia].
    + rewrite py_index_value by (auto; lia). simpl bind.
      rewrite IH by (auto; lia). reflexivity.
  - rewrite IH by (auto; try lia; intros; discriminate). reflexivity.
Qed.

Lemma entries_from_keys (f : Z -> PyVal) (vars : list string) (i : Z) :
  map fst (entries_from f vars i) = vars.
Proof.
  revert i. induction vars as [|v rest IH]; intros i; simpl; [reflexivity|].
  now rewrite IH.
Qed.

Lemma entries_from_In (f : Z -> PyVal) (vars : list string) (i : Z)
    (n : string) (w : PyVal) :
  In (n, w) (entries_from f vars i) <->
  exists j : nat, nth_error vars j = Some n /\ w = f (i + Z.of_nat j).
Proof.
  revert i. induction vars as [|v rest IH]; intros i; simpl.
  - split; [intros []|]. intros [[|j] [H _]]; discriminate.
  - rewrite IH. split.
    + intros [H|[j [Hj Hw]]].
      * inversion H; subst. exists 0%nat. split; [reflexivity|].
        f_equal. lia.
      * exists (S j). split; [exact Hj|]. rewrite Hw. f_equal. lia.
    + intros [[|j] [Hj Hw]].
      * left. simpl in Hj. inversion Hj; subst. f_equal. f_equal. lia.
      * right. exists j. split; [exact Hj|]. rewrite Hw. f_equal. lia.
Qed.

Lemma set_all_keys_incl (es : list (string * PyVal)) :
  forall (d : Dict.t) (x : string),
    In x (Dict.keys (set_all es d)) -> In x (Dict.keys d) \/ In x (map fst es).
Proof.
  induction es as [|[n w] es IH]; intros d x; simpl; [auto|].
  intros H. destruct (IH _ _ H) as [H'|H']; auto.
  destruct (set_keys_incl _ _ _ _ H'); auto.
Qed.

Lemma set_all_keys_NoDup (es : list (string * PyVal)) :
  forall d : Dict.t, NoDup (Dict.keys d) -> NoDup (Dict.keys (set_all es d)).
Proof.
  induction es as [|[n w] es IH]; intros d Hnd; simpl; [auto|].
  apply IH. now apply set_keys_NoDup.
Qed.

Lemma set_all_fresh (es : list (string * PyVal)) :
  forall d : Dict.t,
    NoDup (Dict.keys d ++ map fst es) -> set_all es d = d ++ es.
Proof.
  induction es as [|[n w] es IH]; intros d Hnd; simpl.
  - now rewrite app_nil_r.
  - simpl in Hnd. rewrite set_fresh.
    + rewrite IH.
      * now rewrite <- app_assoc.
      * unfold Dict.keys in *. rewrite map_app. simpl.
        rewrite <- app_assoc. exact Hnd.
    + apply NoDup_remove_2 in Hnd. intros Hin. apply Hnd.
      apply in_or_app. now left.
Qed.

Lemma get_mem (d : Dict.t) (k : string) :
  Dict.mem k d = true -> exists v, Dict.get d k = Ok v /\ In (k, v) d.
Proof.
  induction d as [|[k' v'] d IH]; simpl; [discriminate|].
  destruct (String.eqb_spec k k') as [->|Hne]; simpl.
  - intros _. exists v'. auto.
  - intros H. destruct (IH H) as [v [Hg Hin]]. exists v. auto.
Qed.

(** The loop over the keyword-only names never raises. *)
Lemma fill_allKwargs_run (kdo : option Dict.t) (kwargs : list string) :
  forall d : Dict.t,
    fill_allKwargs kdo kwargs d
    = Ok (set_all (map (fun n => (n, kw_value kdo n)) kwargs) d).
Proof.
  induction kwargs as [|v rest IH]; intros d; [reflexivity|].
  simpl. destruct kdo as [kd|]; [|apply IH].
  destruct (Dict.mem v kd) eqn:Hm; simpl.
  - destruct (get_mem _ _ Hm) as [w [Hg _]]. rewrite Hg. simpl. apply IH.
  - rewrite IH. do 3 f_equal.
    destruct (Dict.get kd v) as [w|e] eqn:Hg; [|reflexivity].
    exfalso. clear - Hm Hg. induction kd as [|[k' v'] kd IHk]; simpl in *.
    + discriminate.
    + destruct (String.eqb v k'); simpl in *; [discriminate|auto].
Qed.

Lemma kw_value_In (kdo : option Dict.t) (n : string) :
  kw_value kdo n = VNoDefault \/
  exists kd, kdo = Some kd /\ In (n, kw_value kdo n) kd.
Proof.
  destruct kdo as [kd|]; simpl; [|now left].
  destruct (Dict.mem n kd) eqn:Hm.
  - destruct (get_mem _ _ Hm) as [w [Hg Hin]]. rewrite Hg.
    right. exists kd. auto.
  - left. destruct (Dict.get kd n) eqn:Hg; [|reflexivity].
    exfalso. clear - Hm Hg. induction kd as [|[k' v'] kd IHk]; simpl in *.
    + discriminate.
    + destruct (String.eqb n k'); simpl in *; [discriminate|auto].
Qed.

(** What the exclusion loop leaves: it never raises, keeps the entries of
    every name that is not excluded and adds none. *)
Lemma drop_ignored_run (ign : list string) :
  forall a k : Dict.t,
    exists a' k' : Dict.t,
      drop_ignored ign a k = Ok (a', k') /\
      (forall e, In e a' -> In e a) /\
      (forall e, In e k' -> In e k) /\
      (NoDup (Dict.keys a) -> NoDup (Dict.keys a')) /\
      (NoDup (Dict.keys k) -> NoDup (Dict.keys k')) /\
      (forall n w, ~ In n ign -> In (n, w) a -> In (n, w) a') /\
      (forall n w, ~ In n ign -> In (n, w) k -> In (n, w) k').
Proof.
  induction ign as [|x rest IH]; intros a k.
  - exists a, k. simpl. repeat split; auto.
  - assert (Hx : forall n, ~ In n (x :: rest) -> n <> x /\ ~ In n rest).
    { intros n Hn. split; intros H; apply Hn; [now left|now right]. }
    simpl. unfold Dict.del.
    destruct (Dict.mem x a) eqn:Ha; simpl;
      [destruct (IH (Dict.remove a x) k)
         as (a' & k' & E & Ia & Ik & Na & Nk & Ra & Rk)
      |destruct (Dict.mem x k) eqn:Hk; simpl;
       [destruct (IH a (Dict.remove k x))
          as (a' & k' & E & Ia & Ik & Na & Nk & Ra & Rk)
       |destruct (IH a k) as (a' & k' & E & Ia & Ik & Na & Nk & Ra & Rk)]];
      exists a', k'; rewrite E;
      (split; [reflexivity|]);
      (split; [intros e He; apply Ia in He;
               first [exact He | eapply remove_incl; exact He]|]);
      (split; [intros e He; apply Ik in He;
               first [exact He | eapply remove_incl; exact He]|]);
      (split; [intros Hnd; apply Na;
               first [exact Hnd | apply remove_keys_NoDup; exact Hnd]|]);
      (split; [intros Hnd; apply Nk;
               first [exact Hnd | apply remove_keys_NoDup; exact Hnd]|]);
      split; intros n w Hn Hin; destruct (Hx n Hn) as [Hne Hrest];
      first [apply Ra | apply Rk]; try exact Hrest;
      first [exact Hin | apply remove_other; [exact Hin|exact Hne]].
Qed.

(** An excluded name that is a key of neither dictionary changes nothing. *)
Lemma drop_ignored_absent (pre post : list string) (x : string) :
  forall a k : Dict.t,
    ~ In x (Dict.keys a) -> ~ In x (Dict.keys k) ->
    drop_ignored (pre ++ x :: post) a k = drop_ignored (pre ++ post) a k.
Proof.
  induction pre as [|p pre IH]; intros a k Ha Hk; simpl.
  - apply mem_false in Ha. apply mem_false in Hk. now rewrite Ha, Hk.
  - unfold Dict.del.
    destruct (Dict.mem p a) eqn:Hpa; simpl.
    + apply IH; auto. intros H. apply Ha. eapply remove_keys_incl; eauto.
    + destruct (Dict.mem p k) eqn:Hpk; simpl.
      * apply IH; auto. intros H. apply Hk. eapply remove_keys_incl; eauto.
      * apply IH; auto.
Qed.

Lemma name_in_absent (name : option string) (pre post : list string) (x : string) :
  name <> Some x ->
  name_in name (pre ++ x :: post) = name_in name (pre ++ post).
Proof.
  intros Hne. destruct name as [n|]; simpl; [|reflexivity].
  rewrite !existsb_app. simpl.
  destruct (String.eqb_spec n x) as [->|_]; [congruence|reflexivity].
Qed.

(** The three outcomes of the scan for the marker. *)
Lemma setupAutoTopic_scan_none (items a : Dict.t) :
  (forall e, In e items -> eq_AUTO_TOPIC (snd e) = false) ->
  setupAutoTopic_scan items a = Ok (None, a).
Proof.
  induction items as [|[n w] items IH]; intros H; simpl; [reflexivity|].
  pose proof (H (n, w) (or_introl eq_refl)) as Hw. simpl in Hw. rewrite Hw.
  apply IH. intros e He. apply H. now right.
Qed.

Lemma setupAutoTopic_scan_inv (items a : Dict.t) (r : option string) (a' : Dict.t) :
  setupAutoTopic_scan items a = Ok (r, a') ->
  (r = None /\ a' = a) \/
  (exists y v, r = Some y /\ In (y, v) items /\ eq_AUTO_TOPIC v = true /\
               In y (Dict.keys a) /\ a' = Dict.remove a y).
Proof.
  induction items as [|[n w] items IH]; simpl.
  - intros H. inversion H. now left.
  - destruct (eq_AUTO_TOPIC w) eqn:Hw.
    + unfold Dict.del. destruct (Dict.mem n a) eqn:Hm; simpl; [|discriminate].
      intros H. inversion H; subst. right. exists n, w.
      repeat split; auto. now apply mem_In.
    + intros H. destruct (IH H) as [?|(y & v & ? & ? & ? & ? & ?)]; [now left|].
      right. exists y, v. repeat split; auto.
Qed.

Lemma setupAutoTopic_scan_first (items a : Dict.t) (y : string) :
  (forall n w, In (n, w) items -> eq_AUTO_TOPIC w = true -> n = y) ->
  (exists v, In (y, v) items /\ eq_AUTO_TOPIC v = true) ->
  In y (Dict.keys a) ->
  setupAutoTopic_scan items a = Ok (Some y, Dict.remove a y).
Proof.
  intros Huniq [v [Hin Hv]] Hy.
  induction items as [|[n w] items IH]; simpl; [destruct Hin|].
  destruct (eq_AUTO_TOPIC w) eqn:Hw.
  - assert (n = y) by (apply (Huniq n w); [now left|auto]). subst.
    unfold Dict.del. apply mem_In in Hy. now rewrite Hy.
  - apply IH.
    + intros n' w' Hin'. apply Huniq. now right.
    + destruct Hin as [H|H]; [|auto]. inversion H; subst. congruence.
Qed.

(** The constructor as one chain; [None] and [[]] take the same path. *)
Lemma CallArgsInfo_init_unfold (spec : FullArgSpec) (off : Z)
    (ignoreArgs : option (list string)) :
  CallArgsInfo_init spec off ignoreArgs
  = (a0 <- fill_allArgs (args spec) (defaults spec) off (args spec) 0 [] ;;
     k0 <- fill_allKwargs (kwonlydefaults spec) (kwonlyargs spec) [] ;;
     ak <- drop_ignored (ign_list ignoreArgs) a0 k0 ;;
     r <- __setupAutoTopic (fst ak) (snd ak) ;;
     Ok (mkCallArgsInfo (snd r) (snd ak)
           (if name_in (varkw spec) (ign_list ignoreArgs) then false
            else match varkw spec with Some _ => true | None => false end)
           (if name_in (varargs spec) (ign_list ignoreArgs) then false
            else match varargs spec with Some _ => true | None => false end)
           (Dict.keys a0 ++ Dict.keys k0)
           (Z.of_nat (List.length
              (filter is_NO_DEFAULT (Dict.values (fst ak) ++ Dict.values (snd ak)))))
           (fst r))).
Proof.
  unfold CallArgsInfo_init.
  destruct (fill_allArgs _ _ _ _ _ _) as [a0|e]; [|reflexivity]. simpl bind.
  destruct (fill_allKwargs _ _ _) as [k0|e]; [|reflexivity]. simpl bind.
  destruct ignoreArgs as [[|x l]|]; simpl truthy; cbv iota.
  - simpl. destruct (varkw spec), (varargs spec); reflexivity.
  - simpl ign_list.
    destruct (drop_ignored (x :: l) a0 k0) as [[a1 k1]|e]; reflexivity.
  - simpl. destruct (varkw spec), (varargs spec); reflexivity.
Qed.

(** The names the first loop stores, whatever the values. *)
Lemma fill_allArgs_shape (all_args : list string) (dso : option (list PyVal))
    (off : Z) (vars : list string) :
  forall (i : Z) (d d' : Dict.t),
    0 <= i ->
    fill_allArgs all_args dso off vars i d = Ok d' ->
    exists es, d' = set_all es d /\ map fst es = effective off i vars.
Proof.
  induction vars as [|v rest IH]; intros i d d' Hi H.
  - simpl in H. inversion H. exists []. split; [reflexivity|].
    unfold effective. now destruct ((i =? 0) && (off >? 0)).
  - assert (Hnext : effective off (i + 1) rest = rest).
    { unfold effective. destruct (Z.eqb_spec (i + 1) 0); [lia|reflexivity]. }
    assert (Hi1 : 0 <= i + 1) by lia.
    simpl in H. unfold effective.
    destruct ((i =? 0) && (off >? 0)).
    + destruct (IH _ _ _ Hi1 H) as [es [E1 E2]].
      exists es. split; [exact E1|]. now rewrite E2, Hnext.
    + assert (Hgo : forall val,
                fill_allArgs all_args dso off rest (i + 1) (Dict.set d v val) = Ok d' ->
                exists es, d' = set_all es d /\ map fst es = v :: rest).
      { intros val Hf. destruct (IH _ _ _ Hi1 Hf) as [es [E1 E2]].
        exists ((v, val) :: es). split; [exact E1|]. simpl.
        now rewrite E2, Hnext. }
      destruct dso as [ds|]; [|eauto].
      cbv zeta in H.
      destruct (i <? argsDefaults_startsAt all_args ds); [eauto|].
      destruct (py_index ds _) as [val|e]; simpl in H; [eauto|discriminate].
Qed.

Lemma real_args_effective (spec : FullArgSpec) (off : Z) :
  effective off 0 (args spec) = real_args spec off.
Proof. reflexivity. Qed.

Lemma real_args_incl (spec : FullArgSpec) (off : Z) (x : string) :
  In x (real_args spec off) -> In x (args spec).
Proof.
  unfold real_args. destruct (off >? 0); [|auto].
  destruct (args spec); simpl; auto.
Qed.

Lemma real_args_NoDup (spec : FullArgSpec) (off : Z) :
  NoDup (args spec) -> NoDup (real_args spec off).
Proof.
  unfold real_args. destruct (off >? 0); [|auto].
  destruct (args spec); simpl; auto. intros H. now inversion H.
Qed.

Lemma distinct_names_args (spec : FullArgSpec) :
  distinct_names spec -> NoDup (args spec).
Proof. unfold distinct_names. intros H. now apply NoDup_app_remove_r in H. Qed.

Lemma distinct_names_kwonly (spec : FullArgSpec) :
  distinct_names spec -> NoDup (kwonlyargs spec).
Proof. unfold distinct_names. intros H. now apply NoDup_app_remove_l in H. Qed.

Lemma distinct_names_disjoint (spec : FullArgSpec) (x : string) :
  distinct_names spec -> In x (args spec) -> ~ In x (kwonlyargs spec).
Proof.
  unfold distinct_names. induction (args spec) as [|a l IH]; simpl; [tauto|].
  intros Hnd [->|Hin] Hk.
  - inversion Hnd as [|? ? Hn _]; subst. apply Hn. apply in_or_app. now right.
  - inversion Hnd; subst. now apply IH.
Qed.

Lemma keys_In (d : Dict.t) (n : string) (w : PyVal) :
  In (n, w) d -> In n (Dict.keys d).
Proof. intros H. unfold Dict.keys. apply in_map_iff. exists (n, w). auto. Qed.

Lemma In_keys (d : Dict.t) (n : string) :
  In n (Dict.keys d) -> exists w, In (n, w) d.
Proof.
  unfold Dict.keys. rewrite in_map_iff. intros [[n' w] [E H]].
  simpl in E. subst. eauto.
Qed.

Lemma CallArgsInfo_init_inv (spec : FullArgSpec) (off : Z)
    (ignoreArgs : option (list string)) (info : CallArgsInfo) :
  CallArgsInfo_init spec off ignoreArgs = Ok info ->
  exists a0 k0 a1 k1, built spec off (ign_list ignoreArgs) info a0 k0 a1 k1.
Proof.
  rewrite CallArgsInfo_init_unfold.
  destruct (fill_allArgs _ _ _ _ _ _) as [a0|e] eqn:Hfill; [|discriminate].
  simpl bind. rewrite fill_allKwargs_run. simpl bind.
  set (k0 := set_all _ []).
  destruct (drop_ignored_run (ign_list ignoreArgs) a0 k0)
    as (a1 & k1 & E & Ia & Ik & Na & Nk & Ra & Rk).
  rewrite E. simpl bind. unfold __setupAutoTopic, _combinedDict.
  destruct (setupAutoTopic_scan _ _) as [[r a']|e] eqn:Hscan; [|discriminate].
  simpl. intros H. inversion H; subst info; clear H.
  destruct (fill_allArgs_shape _ _ _ _ _ (Z.le_refl 0) Hfill) as [es [Ees Hes]].
  rewrite real_args_effective in Hes.
  assert (Ha0nd : NoDup (Dict.keys a0)).
  { rewrite Ees. apply set_all_keys_NoDup. constructor. }
  assert (Hk0nd : NoDup (Dict.keys k0)).
  { apply set_all_keys_NoDup. constructor. }
  exists a0, k0, a1, k1. constructor; simpl; auto.
  - intros x Hx. rewrite Ees in Hx.
    destruct (set_all_keys_incl _ _ _ Hx) as [[]|Hx']. now rewrite Hes in Hx'.
  - intros Hnd. rewrite Ees, set_all_fresh.
    + simpl. exact Hes.
    + simpl. rewrite Hes. now apply real_args_NoDup.
  - intros x Hx. destruct (set_all_keys_incl _ _ _ Hx) as [[]|Hx'].
    rewrite map_map in Hx'. simpl in Hx'. now rewrite map_id in Hx'.
  - intros Hnd. unfold k0. rewrite set_all_fresh; [reflexivity|].
    simpl. rewrite map_map. simpl. now rewrite map_id.
Qed.

End Steps.

(** ** Properties of the descriptor *)

Import DictFacts Steps.
Unset Implicit Arguments.

Ltac solve_NoDup :=
  repeat (constructor; [simpl; intuition discriminate|]); constructor.

(** The keys of the two dictionaries of a descriptor stay among the names
    stored by the loops. *)
Lemma built_final_keys (spec : FullArgSpec) (off : Z) (ign : list string)
    (info : CallArgsInfo) (a0 k0 a1 k1 : Dict.t) (x : string) :
  built spec off ign info a0 k0 a1 k1 ->
  In x (Dict.keys (allArgs info ++ allKwargs info)) ->
  In x (real_args spec off) \/ In x (kwonlyargs spec).
Proof.
  intros B Hx. unfold Dict.keys in Hx. rewrite map_app in Hx.
  apply in_app_or in Hx. destruct Hx as [Hx|Hx].
  - left. apply (b_a0_keys B).
    destruct (setupAutoTopic_scan_inv _ _ (b_scan B))
      as [[_ E]|(y & v & _ & _ & _ & _ & E)]; rewrite E in Hx.
    + apply In_keys in Hx. destruct Hx as [w Hw].
      eapply keys_In. apply (b_a1_incl B). exact Hw.
    + apply remove_keys_incl in Hx. apply In_keys in Hx. destruct Hx as [w Hw].
      eapply keys_In. apply (b_a1_incl B). exact Hw.
  - right. apply (b_k0_keys B). rewrite (b_kwargs B) in Hx.
    apply In_keys in Hx. destruct Hx as [w Hw].
    eapply keys_In. apply (b_k1_incl B). exact Hw.
Qed.

Lemma filter_keys_incl (P : string * PyVal -> bool) (d : Dict.t) (x : string) :
  In x (map fst (filter P d)) -> In x (Dict.keys d).
Proof.
  rewrite in_map_iff. intros [e [E H]]. apply filter_In in H.
  unfold Dict.keys. apply in_map_iff. exists e. tauto.
Qed.

Lemma allParams_names (spec : FullArgSpec) (off : Z)
    (ignoreArgs : option (list string)) (info : CallArgsInfo) :
  distinct_names spec ->
  CallArgsInfo_init spec off ignoreArgs = Ok info ->
  allParams info = real_args spec off ++ kwonlyargs spec.
Proof.
  intros Hd Hi.
  destruct (CallArgsInfo_init_inv _ _ _ Hi) as (a0 & k0 & a1 & k1 & B).
  rewrite (b_params B).
  rewrite (b_a0_exact B) by now apply distinct_names_args.
  rewrite (b_k0_exact B) by now apply distinct_names_kwonly.
  unfold Dict.keys. rewrite map_map. simpl. now rewrite map_id.
Qed.

(** C10.  The tuple returned by [getAllArgs] lists the parameters after the
    receiver in declaration order, ordinary names first and keyword-only
    names after them, and is the same for every exclusion list and whether
    or not a parameter was taken as the auto-topic parameter. *)
Theorem getAllArgs_frame (spec : FullArgSpec) (off : Z)
    (ignoreArgs : option (list string)) (info : CallArgsInfo) :
  distinct_names spec ->
  CallArgsInfo_init spec off ignoreArgs = Ok info ->
  getAllArgs info = real_args spec off ++ kwonlyargs spec /\
  (forall ignoreArgs' info',
      CallArgsInfo_init spec off ignoreArgs' = Ok info' ->
      getAllArgs info' = getAllArgs info).
Proof.
  intros Hd H. unfold getAllArgs.
  rewrite (allParams_names _ _ _ _ Hd H). split; [reflexivity|].
  intros ig i Hi. now rewrite (allParams_names _ _ _ _ Hd Hi).
Qed.

(** [Handler.on_msg(self, a, b)] with [b] excluded still reports [a] and [b]. *)
Lemma getAllArgs_frame_witness :
  distinct_names spec_on_msg /\
  CallArgsInfo_init spec_on_msg 1 (Some ["b"]) = Ok on_msg_info /\
  getAllArgs on_msg_info = ["a"; "b"].
Proof.
  assert (Hd : distinct_names spec_on_msg) by (unfold distinct_names; simpl; solve_NoDup).
  split; [exact Hd|]. split; [reflexivity|].
  exact (proj1 (getAllArgs_frame spec_on_msg 1 (Some ["b"]) on_msg_info Hd eq_refl)).
Defined.

(** C5.  A function is inspected as it is with offset 0, a bound method as
    it is with offset 1, a callable object through its [__call__] with
    offset 1; and for a bound method or a callable object the receiver is in
    none of [getAllArgs], [getRequiredArgs], [getOptionalArgs]. *)
Theorem classifier_contract :
  (forall f, getRawFunction (OFunction f) = Ok (OFunction f, 0)) /\
  (forall self f, getRawFunction (OMethod self f) = Ok (OMethod self f, 1)) /\
  (forall o f, call_op o = Some f ->
               getRawFunction (OInstance o) = Ok (OMethod o f, 1)) /\
  (forall c o f receiver ignoreArgs info,
      c = OMethod o f \/ (c = OInstance o /\ call_op o = Some f) ->
      distinct_names (f_spec f) ->
      hd_error (args (f_spec f)) = Some receiver ->
      getArgs c ignoreArgs = Ok info ->
      ~ In receiver (getAllArgs info) /\
      ~ In receiver (getRequiredArgs info) /\
      ~ In receiver (getOptionalArgs info)).
Proof.
  split; [reflexivity|]. split; [reflexivity|].
  split; [intros o f H; simpl; now rewrite H|].
  intros c o f receiver ig info Hc Hd Hrecv Hget.
  assert (Hinit : CallArgsInfo_init (f_spec f) 1 ig = Ok info).
  { destruct Hc as [->|[-> Hcall]]; [exact Hget|].
    unfold getArgs in Hget. simpl in Hget. rewrite Hcall in Hget. exact Hget. }
  clear Hget Hc.
  assert (Hout : ~ (In receiver (real_args (f_spec f) 1)
                    \/ In receiver (kwonlyargs (f_spec f)))).
  { unfold real_args. simpl. pose proof (distinct_names_args Hd) as Hnd.
    destruct (args (f_spec f)) as [|r rest] eqn:Ea; [discriminate|].
    simpl in Hrecv. inversion Hrecv; subst r. simpl.
    intros [Hin|Hin].
    - inversion Hnd; auto.
    - eapply distinct_names_disjoint; eauto. rewrite Ea. now left. }
  pose proof (allParams_names _ _ _ _ Hd Hinit) as Hall.
  destruct (CallArgsInfo_init_inv _ _ _ Hinit) as (a0 & k0 & a1 & k1 & B).
  split; [|split].
  - unfold getAllArgs. rewrite Hall. intros Hin. apply Hout. now apply in_app_or.
  - intros Hin. apply Hout. eapply built_final_keys; [exact B|].
    eapply filter_keys_incl. exact Hin.
  - intros Hin. apply Hout. eapply built_final_keys; [exact B|].
    eapply filter_keys_incl. exact Hin.
Qed.

(** The functor [Handler] with [__call__(self, a, b)]: [self] is reported
    nowhere. *)
Lemma classifier_contract_witness :
  getRawFunction (OInstance handler) = Ok (OMethod handler handler_call, 1) /\
  getArgs (OInstance handler) None = Ok handler_info /\
  ~ In "self" (getAllArgs handler_info) /\
  ~ In "self" (getRequiredArgs handler_info) /\
  ~ In "self" (getOptionalArgs handler_info).
Proof.
  destruct classifier_contract as (_ & _ & Hfun & Hrecv).
  split; [apply Hfun; reflexivity|]. split; [reflexivity|].
  apply (Hrecv (OInstance handler) handler handler_call "self" None handler_info).
  - right. split; reflexivity.
  - unfold distinct_names. simpl. solve_NoDup.
  - reflexivity.
  - reflexivity.
Defined.

Lemma required_length (d : Dict.t) :
  List.length (filter is_NO_DEFAULT (Dict.values d))
  = List.length (map fst (filter (fun kv => is_NO_DEFAULT (snd kv)) d)).
Proof.
  rewrite length_map. unfold Dict.values.
  induction d as [|[n w] d IH]; simpl; [reflexivity|].
  destruct (is_NO_DEFAULT w); simpl; now rewrite IH.
Qed.

Lemma eq_AUTO_TOPIC_has_default (v : PyVal) :
  eq_AUTO_TOPIC v = true -> is_NO_DEFAULT v = false.
Proof. destruct v; simpl; congruence. Qed.

(** C7.  [numRequired] is the number of names [getRequiredArgs] returns and
    is not negative, also when the exclusion list removed a required name
    and when an auto-topic parameter was removed. *)
Theorem numRequired_counts_required (spec : FullArgSpec) (off : Z)
    (ignoreArgs : option (list string)) (info : CallArgsInfo) :
  distinct_names spec ->
  CallArgsInfo_init spec off ignoreArgs = Ok info ->
  numRequired info = Z.of_nat (List.length (getRequiredArgs info)) /\
  0 <= numRequired info.
Proof.
  intros Hd H.
  destruct (CallArgsInfo_init_inv _ _ _ H) as (a0 & k0 & a1 & k1 & B).
  assert (Heq : numRequired info = Z.of_nat (List.length (getRequiredArgs info))).
  { rewrite (b_num B). f_equal. unfold getRequiredArgs.
    unfold Dict.values. rewrite <- map_app. fold (Dict.values (a1 ++ k1)).
    rewrite required_length. rewrite !length_map. rewrite (b_kwargs B).
    rewrite !filter_app. rewrite !length_app. f_equal.
    destruct (setupAutoTopic_scan_inv _ _ (b_scan B))
      as [[_ E]|(y & v & _ & Hin & Hv & Hy & E)]; rewrite E; [reflexivity|].
    assert (Hdis : forall x, In x (Dict.keys k1) -> ~ In x (Dict.keys a1)).
    { intros x Hk Ha.
      apply In_keys in Hk. destruct Hk as [wk Hk]. apply (b_k1_incl B) in Hk.
      apply In_keys in Ha. destruct Ha as [wa Ha]. apply (b_a1_incl B) in Ha.
      apply keys_In in Hk. apply keys_In in Ha.
      apply (b_k0_keys B) in Hk. apply (b_a0_keys B) in Ha.
      apply real_args_incl in Ha.
      now apply (distinct_names_disjoint x Hd). }
    rewrite merge_disjoint in Hin by (auto; apply (b_k1_NoDup B)).
    apply in_app_or in Hin. destruct Hin as [Hin|Hin].
    - symmetry. f_equal.
      apply filter_remove with (v := v); [apply (b_a1_NoDup B)|exact Hin|].
      simpl. now apply eq_AUTO_TOPIC_has_default.
    - exfalso. apply keys_In in Hin. now apply (Hdis y). }
  split; [exact Heq|]. rewrite Heq. lia.
Qed.

(** [h] with [a] excluded: [b] is the one required name left, and [t] was
    taken as the auto-topic parameter. *)
Lemma numRequired_counts_required_witness :
  distinct_names spec_h /\
  CallArgsInfo_init spec_h 0 (Some ["a"]) = Ok h_info /\
  numRequired h_info = Z.of_nat (List.length (getRequiredArgs h_info)) /\
  0 <= numRequired h_info.
Proof.
  assert (Hd : distinct_names spec_h) by (unfold distinct_names; simpl; solve_NoDup).
  split; [exact Hd|]. split; [reflexivity|].
  exact (numRequired_counts_required spec_h 0 (Some ["a"]) h_info Hd eq_refl).
Defined.

(** C8.  The loop over the exclusion list never raises, and an entry that
    names no parameter left after the receiver, no keyword-only parameter
    and neither catch-all changes nothing: construction gives the same
    result as without the entry. *)
Theorem exclusion_of_unknown_name (spec : FullArgSpec) (off : Z)
    (pre post : list string) (x : string) :
  ~ In x (real_args spec off) ->
  ~ In x (kwonlyargs spec) ->
  varargs spec <> Some x ->
  varkw spec <> Some x ->
  (forall a k, exists a' k', drop_ignored (pre ++ x :: post) a k = Ok (a', k')) /\
  CallArgsInfo_init spec off (Some (pre ++ x :: post))
  = CallArgsInfo_init spec off (Some (pre ++ post)).
Proof.
  intros Ha Hk Hva Hvk. split.
  { intros a k. destruct (drop_ignored_run (pre ++ x :: post) a k)
      as (a' & k' & E & _). eauto. }
  rewrite !CallArgsInfo_init_unfold. simpl ign_list.
  destruct (fill_allArgs _ _ _ _ _ _) as [a0|e] eqn:Hfill; [|reflexivity].
  simpl bind. rewrite fill_allKwargs_run. simpl bind.
  destruct (fill_allArgs_shape _ _ _ _ _ (Z.le_refl 0) Hfill) as [es [Ees Hes]].
  rewrite real_args_effective in Hes.
  rewrite drop_ignored_absent.
  - now rewrite (@name_in_absent _ pre post x Hva), (@name_in_absent _ pre post x Hvk).
  - intros Hin. rewrite Ees in Hin.
    destruct (set_all_keys_incl _ _ _ Hin) as [[]|Hin']. apply Ha. now rewrite <- Hes.
  - intros Hin. destruct (set_all_keys_incl _ _ _ Hin) as [[]|Hin'].
    rewrite map_map in Hin'. simpl in Hin'. rewrite map_id in Hin'. auto.
Qed.

(** [None] and the empty exclusion list give the same result. *)
Lemma exclusion_empty (spec : FullArgSpec) (off : Z) :
  CallArgsInfo_init spec off (Some []) = CallArgsInfo_init spec off None.
Proof. now rewrite !CallArgsInfo_init_unfold. Qed.

(** [Handler.on_msg(self, a, b)] with exclusions [b] and the unknown
    [topic]. *)
Lemma exclusion_of_unknown_name_witness :
  CallArgsInfo_init spec_on_msg 1 (Some (["b"] ++ "topic" :: []))
  = CallArgsInfo_init spec_on_msg 1 (Some (["b"] ++ [])) /\
  CallArgsInfo_init spec_on_msg 1 (Some (["b"] ++ [])) = Ok on_msg_info.
Proof.
  split; [|reflexivity].
  apply (exclusion_of_unknown_name spec_on_msg 1 ["b"] [] "topic").
  - simpl. intuition discriminate.
  - simpl. tauto.
  - discriminate.
  - discriminate.
Defined.

(** C6.  A value that is neither a function nor a bound method and has no
    [__call__] makes [getArgs] raise a [ListenerMismatchError] whose
    rendering contains the name of the value's type; no descriptor is
    returned. *)
Theorem unsupported_callable (c : PyObj) (ignoreArgs : option (list string)) :
  isfunction c = false -> ismethod c = false -> hasattr_call c = false ->
  exists e,
    getArgs c ignoreArgs = Raise (ListenerMismatchError e) /\
    occurs_in (type_name c) (ListenerMismatchError_str e) /\
    (forall info, getArgs c ignoreArgs <> Ok info).
Proof.
  intros Hf Hm Hc. destruct c as [f|s f|o]; try discriminate.
  simpl in Hc. unfold getArgs. simpl. destruct (call_op o); [discriminate|].
  eexists. split; [reflexivity|]. split; [|discriminate].
  unfold ListenerMismatchError_str, ListenerMismatchError_init. simpl.
  exists ("Listener " ++ dquote)%string.
  eexists. reflexivity.
Qed.

(** An instance of a class [Plain] without [__call__]. *)
Lemma unsupported_callable_witness :
  exists e,
    getArgs plain_value None = Raise (ListenerMismatchError e) /\
    occurs_in "Plain" (ListenerMismatchError_str e) /\
    (forall info, getArgs plain_value None <> Ok info).
Proof.
  exact (unsupported_callable plain_value None eq_refl eq_refl eq_refl).
Defined.

(** The rendering of a [ListenerMismatchError] is [Listener "<identifier>"
    (from module "<module>") inadequate: <explanation>] with the identifier
    and module of [getID]; the module is [__main__] when the object has no
    [__module__] attribute, the module name when the attribute holds one,
    and [None] when the attribute holds [None]. *)
Lemma ListenerMismatchError_rendering (msg : string) (listener : PyObj)
    (extra : list PyVal) :
  ListenerMismatchError_str (ListenerMismatchError_init msg listener extra)
  = rendering (fst (getID listener)) (str_of_module (snd (getID listener))) msg /\
  snd (getID listener) = getModule (module_owner listener) /\
  (module_attr (module_owner listener) = None ->
   str_of_module (snd (getID listener)) = "__main__") /\
  (forall m, module_attr (module_owner listener) = Some (Some m) ->
             str_of_module (snd (getID listener)) = m) /\
  (module_attr (module_owner listener) = Some None ->
   str_of_module (snd (getID listener)) = "None").
Proof.
  assert (Hmod : snd (getID listener) = getModule (module_owner listener))
    by (destruct listener; reflexivity).
  split; [|split; [exact Hmod|split; [|split]]].
  - unfold ListenerMismatchError_init, ListenerMismatchError_str.
    destruct (getID listener) as [idStr module]. reflexivity.
  - intros H. rewrite Hmod. unfold getModule. now rewrite H.
  - intros m H. rewrite Hmod. unfold getModule. now rewrite H.
  - intros H. rewrite Hmod. unfold getModule. now rewrite H.
Qed.

(** An instance of the builtin [int] has no [__module__]: the fallback
    applies. *)
Example builtin_value_rendering :
  ListenerMismatchError_str (ListenerMismatchError_init "no" builtin_value [])
  = rendering "int" "__main__" "no" /\
  snd (getID builtin_value) = Some "__main__".
Proof. split; reflexivity. Qed.

(** C9.  For the function [nomod], whose [__module__] is [None], [getModule]
    returns [None] and not the string [__main__]: the rendering is [Listener
    "nomod" (from module "None") inadequate: no], where the double quote is
    the character of code 34. *)
Theorem function_without_module_rendering :
  hasattr_module nomod = true /\
  getModule nomod = None /\
  getID nomod = ("nomod", None) /\
  ListenerMismatchError_str (ListenerMismatchError_init "no" nomod [])
  = ("Listener " ++ dquote ++ "nomod" ++ dquote ++ " (from module " ++ dquote
     ++ "None" ++ dquote ++ ") inadequate: no")%string /\
  dquote = String (Ascii.ascii_of_nat 34) EmptyString.
Proof. repeat split. Qed.

(** ** Alignment of the declared defaults *)

Lemma real_args_skipn (spec : FullArgSpec) (off : Z) :
  real_args spec off = skipn (first_index off) (args spec).
Proof.
  unfold real_args, first_index. destruct (off >? 0); [|reflexivity].
  now destruct (args spec).
Qed.

(** With distinct names and a non-empty [defaults] tuple the first loop
    does not raise, and stores [value_at] under each name after the
    receiver. *)
Lemma fill_allArgs_built (spec : FullArgSpec) (off : Z) :
  NoDup (args spec) ->
  (forall ds, defaults spec = Some ds -> (1 <= List.length ds)%nat) ->
  fill_allArgs (args spec) (defaults spec) off (args spec) 0 []
  = Ok (stored_args spec off).
Proof.
  intros Hnd Hds. unfold stored_args, real_args, first_index.
  destruct (Z.gtb_spec off 0) as [Hoff|Hoff].
  - destruct (args spec) as [|r rest] eqn:Ea; [reflexivity|].
    rewrite fill_allArgs_skip by lia.
    rewrite fill_allArgs_run.
    + rewrite set_all_fresh; [reflexivity|].
      simpl. rewrite entries_from_keys. now inversion Hnd.
    + reflexivity.
    + lia.
    + intros ds E. split; [auto|]. simpl List.length. lia.
  - rewrite fill_allArgs_run.
    + rewrite set_all_fresh; [reflexivity|].
      simpl. now rewrite entries_from_keys.
    + destruct (Z.gtb_spec off 0); [lia|]. apply andb_false_r.
    + lia.
    + intros ds E. split; [auto|]. simpl. lia.
Qed.

Lemma In_combine_nth_error {A B : Type} (l1 : list A) (l2 : list B) (a : A) (b : B) :
  In (a, b) (combine l1 l2) <->
  exists q, nth_error l1 q = Some a /\ nth_error l2 q = Some b.
Proof.
  revert l2. induction l1 as [|x l1 IH]; intros l2; simpl.
  - split; [intros []|]. intros [[|q] [H _]]; discriminate.
  - destruct l2 as [|z l2]; simpl.
    + split; [intros []|]. intros [[|q] [_ H]]; discriminate.
    + rewrite IH. split.
      * intros [H|[q [H1 H2]]].
        -- inversion H; subst. now exists 0%nat.
        -- now exists (S q).
      * intros [[|q] [H1 H2]]; simpl in *.
        -- left. congruence.
        -- right. eauto.
Qed.

(** ** Evaluation on the examples of the specification *)

(** C1.  For [f(a, b=1, *, c, d=2)] the code stores the default [1] under
    [a] as well: [a] is reported optional and [c] is the only required
    name. *)
Theorem free_function_defaults_eval :
  exists info,
    CallArgsInfo_init spec_f 0 None = Ok info /\
    allArgs info = [("a", VInt 1); ("b", VInt 1)] /\
    getRequiredArgs info = ["c"] /\
    getOptionalArgs info = ["a"; "b"; "d"] /\
    acceptsAllUnnamedArgs info = false /\
    acceptsAllKwargs info = false.
Proof. eexists. repeat split. Qed.

(** The example of the constructor's docstring,
    [listener(self, arg1, arg2=AUTO_TOPIC, arg3=None)], for which it
    announces [numRequired = 1]. *)
Example docstring_listener_eval :
  exists info,
    CallArgsInfo_init
      (plain ["self"; "arg1"; "arg2"; "arg3"] (Some [VStr AUTO_TOPIC; VNone]))
      1 None = Ok info /\
    getAllArgs info = ["arg1"; "arg2"; "arg3"] /\
    numRequired info = 0 /\
    autoTopicArgName info = Some "arg2".
Proof. eexists. repeat split. Qed.

(** C3.  For [Handler.on_msg(self, a, b)], excluding [b] removes it from
    [getRequiredArgs] but [getAllArgs] is the same with and without the
    exclusion. *)
Theorem exclusion_keeps_allParams_eval :
  exists excl full,
    CallArgsInfo_init spec_on_msg 1 (Some ["b"]) = Ok excl /\
    CallArgsInfo_init spec_on_msg 1 None = Ok full /\
    getAllArgs full = ["a"; "b"] /\
    getAllArgs excl = ["a"; "b"] /\
    getRequiredArgs excl = ["a"].
Proof. do 2 eexists. repeat split. Qed.

(** C4.  For [g( *, t=AUTO_TOPIC)] construction raises [KeyError]: the
    marker is found among the keyword-only parameters and the name is
    deleted from the dictionary of the ordinary ones. *)
Theorem keyword_only_topic_raises :
  CallArgsInfo_init spec_kw_topic 0 None = Raise (KeyError "t") /\
  getArgs (OFunction (mkPyFunc "g" (Some "app") spec_kw_topic)) None
  = Raise (KeyError "t").
Proof. split; reflexivity. Qed.

(** C2.  For [__call__(self, y=AUTO_TOPIC)] the name [y] is recorded and
    leaves the required and optional names, but [getAllArgs] still
    returns it. *)
Lemma auto_topic_in_allParams :
  ~ (forall info,
        CallArgsInfo_init spec_call_y 1 None = Ok info ->
        autoTopicArgName info = Some "y" /\
        ~ In "y" (getRequiredArgs info) /\
        ~ In "y" (getOptionalArgs info) /\
        ~ In "y" (getAllArgs info)).
Proof.
  intros H.
  destruct (H (mkCallArgsInfo [] [] false false ["y"] 0 (Some "y")) eq_refl)
    as (_ & _ & _ & Hall).
  apply Hall. now left.
Qed.

(** The callable object of the claim, [__call__(self, x, y=AUTO_TOPIC)]:
    [x] is recorded and [y] stays optional. *)
Example call_x_y_eval :
  exists info,
    CallArgsInfo_init spec_call_x_y 1 None = Ok info /\
    autoTopicArgName info = Some "x" /\
    getOptionalArgs info = ["y"] /\
    getAllArgs info = ["x"; "y"].
Proof. eexists. repeat split. Qed.

(** ** The auto-topic parameter *)

Section Alignment.

Variables (spec : FullArgSpec) (off : Z) (ds : list PyVal).
Hypothesis Hds : defaults spec = Some ds.
Hypothesis Hlen : (List.length ds <= List.length (args spec))%nat.

Lemma real_args_length :
  List.length (real_args spec off)
  = (List.length (args spec) - first_index off)%nat.
Proof. rewrite real_args_skipn. apply length_skipn. Qed.

Lemma real_args_nth_error (j : nat) :
  nth_error (real_args spec off) j = nth_error (args spec) (first_index off + j).
Proof. rewrite real_args_skipn. apply nth_error_skipn. Qed.

(** What the first loop stores is [NO_DEFAULT], or the last default in the
    slot before the defaulted parameters, or a declared default under its
    own name. *)
Lemma stored_cases (n : string) (w : PyVal) :
  In (n, w) (stored_args spec off) ->
  w = VNoDefault \/
  (w = last ds VNone /\ (List.length ds < List.length (real_args spec off))%nat) \/
  In (n, w) (declared_defaults spec).
Proof.
  unfold stored_args. rewrite Hds, entries_from_In. intros (j & Hj & Hw).
  assert (Hjlt : (j < List.length (real_args spec off))%nat)
    by (apply nth_error_Some; congruence).
  pose proof real_args_length as HL.
  unfold value_at, argsDefaults_startsAt in Hw.
  destruct (Z.ltb_spec (Z.of_nat (first_index off) + Z.of_nat j)
              (Z.of_nat (List.length (args spec)) - Z.of_nat (List.length ds) - 1))
    as [Hlt|Hge]; [now left|].
  destruct (Z.eqb_spec (Z.of_nat (first_index off) + Z.of_nat j)
              (Z.of_nat (List.length (args spec)) - Z.of_nat (List.length ds) - 1))
    as [Heq|Hne].
  - right; left. split; [exact Hw|lia].
  - right; right. unfold declared_defaults. rewrite Hds.
    apply In_combine_nth_error.
    exists (first_index off + j - (List.length (args spec) - List.length ds))%nat.
    split.
    + rewrite nth_error_skipn. rewrite <- Hj, real_args_nth_error. f_equal. lia.
    + rewrite Hw. rewrite (nth_error_nth' ds VNone) by lia. do 2 f_equal. lia.
Qed.

(** A declared default is stored under its name, unless the name is the
    skipped receiver. *)
Lemma declared_stored (y : string) (v : PyVal) :
  NoDup (args spec) ->
  In (y, v) (declared_defaults spec) ->
  In y (real_args spec off) ->
  In (y, v) (stored_args spec off).
Proof.
  intros Hnd Hy Hreal. unfold declared_defaults in Hy. rewrite Hds in Hy.
  apply In_combine_nth_error in Hy. destruct Hy as (q & Hq1 & Hq2).
  rewrite nth_error_skipn in Hq1.
  assert (Hqlt : (q < List.length ds)%nat) by (apply nth_error_Some; congruence).
  apply In_nth_error in Hreal. destruct Hreal as [j Hj].
  assert (Hjlt : (j < List.length (real_args spec off))%nat)
    by (apply nth_error_Some; congruence).
  pose proof real_args_length as HL.
  rewrite real_args_nth_error in Hj.
  assert (Hidx : (first_index off + j
                  = List.length (args spec) - List.length ds + q)%nat).
  { apply (proj1 (NoDup_nth_error (args spec)) Hnd); [lia|congruence]. }
  unfold stored_args. rewrite Hds. apply entries_from_In. exists j.
  split; [now rewrite real_args_nth_error|].
  unfold value_at, argsDefaults_startsAt.
  destruct (Z.ltb_spec (Z.of_nat (first_index off) + Z.of_nat j)
              (Z.of_nat (List.length (args spec)) - Z.of_nat (List.length ds) - 1));
    [lia|].
  destruct (Z.eqb_spec (Z.of_nat (first_index off) + Z.of_nat j)
              (Z.of_nat (List.length (args spec)) - Z.of_nat (List.length ds) - 1));
    [lia|].
  symmetry. apply nth_error_nth.
  rewrite <- Hq2. f_equal. lia.
Qed.

End Alignment.

(** C2, as the code has it.  When exactly one parameter declares the marker
    as its default, that parameter is an ordinary one after the receiver and
    is not excluded, and the marker is not a last default that the loop
    also stores under the preceding parameter, then construction succeeds,
    the name is recorded in [autoTopicArgName], it is in neither
    [getRequiredArgs] nor [getOptionalArgs], and [getAllArgs] still
    returns it. *)
Theorem auto_topic_parameter (spec : FullArgSpec) (off : Z)
    (ignoreArgs : option (list string)) (ds : list PyVal)
    (y : string) (v : PyVal) :
  distinct_names spec ->
  defaults spec = Some ds ->
  (List.length ds <= List.length (args spec))%nat ->
  In (y, v) (declared_defaults spec) ->
  eq_AUTO_TOPIC v = true ->
  (forall n w, In (n, w) (declared_defaults spec) ->
               eq_AUTO_TOPIC w = true -> n = y) ->
  (forall kd n w, kwonlydefaults spec = Some kd -> In (n, w) kd ->
                  eq_AUTO_TOPIC w = false) ->
  In y (real_args spec off) ->
  ~ In y (ign_list ignoreArgs) ->
  eq_AUTO_TOPIC (last ds VNone) = false \/
  (List.length (real_args spec off) <= List.length ds)%nat ->
  exists info,
    CallArgsInfo_init spec off ignoreArgs = Ok info /\
    autoTopicArgName info = Some y /\
    ~ In y (getRequiredArgs info) /\
    ~ In y (getOptionalArgs info) /\
    In y (getAllArgs info).
Proof.
  intros Hd Hds Hlen Hy Hv Huniq Hkw Hreal Hign Hslot.
  pose proof (distinct_names_args Hd) as Hnd.
  pose proof (distinct_names_kwonly Hd) as Hndk.
  assert (HD1 : forall ds0, defaults spec = Some ds0 -> (1 <= List.length ds0)%nat).
  { intros ds0 E. rewrite Hds in E. inversion E; subst ds0.
    unfold declared_defaults in Hy. rewrite Hds in Hy.
    destruct ds; [|simpl; lia]. rewrite combine_nil in Hy. destruct Hy. }
  set (k0 := map (fun n => (n, kw_value (kwonlydefaults spec) n)) (kwonlyargs spec)).
  assert (Hk0 : Dict.keys k0 = kwonlyargs spec).
  { unfold k0, Dict.keys. rewrite map_map. simpl. now rewrite map_id. }
  assert (Ha0 : Dict.keys (stored_args spec off) = real_args spec off).
  { unfold stored_args, Dict.keys. now rewrite entries_from_keys. }
  destruct (drop_ignored_run (ign_list ignoreArgs) (stored_args spec off) k0)
    as (a1 & k1 & E & Ia & Ik & Na & Nk & Ra & Rk).
  assert (Hya1 : In (y, v) a1).
  { apply Ra; [exact Hign|].
    now apply (declared_stored spec off ds Hds Hlen y v Hnd). }
  assert (Hdis : forall x, In x (Dict.keys k1) -> ~ In x (Dict.keys a1)).
  { intros x Hk Ha.
    apply In_keys in Hk. destruct Hk as [wk Hk]. apply Ik, keys_In in Hk.
    apply In_keys in Ha. destruct Ha as [wa Ha]. apply Ia, keys_In in Ha.
    rewrite Hk0 in Hk. rewrite Ha0 in Ha. apply real_args_incl in Ha.
    now apply (distinct_names_disjoint x Hd). }
  assert (Hscan : setupAutoTopic_scan (Dict.merge a1 k1) a1
                  = Ok (Some y, Dict.remove a1 y)).
  { rewrite merge_disjoint by (auto; apply Nk; rewrite Hk0; exact Hndk).
    apply setupAutoTopic_scan_first.
    - intros n w Hin Hw. apply in_app_or in Hin. destruct Hin as [Hin|Hin].
      + apply Ia in Hin.
        destruct (stored_cases spec off ds Hds Hlen n w Hin)
          as [->|[[-> Hlt]|Hdecl]].
        * discriminate.
        * destruct Hslot; [congruence|lia].
        * now apply (Huniq n w).
      + apply Ik in Hin. apply in_map_iff in Hin. destruct Hin as (n' & E' & _).
        inversion E'; subst n' w.
        destruct (kw_value_In (kwonlydefaults spec) n) as [E''|(kd & Hkd & Hin)].
        * rewrite E'' in Hw. discriminate.
        * rewrite (Hkw kd n _ Hkd Hin) in Hw. discriminate.
    - exists v. split; [|exact Hv]. apply in_or_app. now left.
    - eapply keys_In. exact Hya1. }
  rewrite CallArgsInfo_init_unfold.
  rewrite (fill_allArgs_built spec off Hnd HD1). simpl bind.
  rewrite fill_allKwargs_run. simpl bind.
  rewrite set_all_fresh by (simpl; fold k0; rewrite <- Hk0 in Hndk; exact Hndk).
  simpl app. fold k0. rewrite E. simpl bind.
  unfold __setupAutoTopic, _combinedDict. simpl fst. simpl snd.
  rewrite Hscan. simpl bind.
  eexists. split; [reflexivity|]. simpl.
  assert (Hgone : ~ In y (Dict.keys (Dict.remove a1 y ++ k1))).
  { unfold Dict.keys. rewrite map_app. intros Hin.
    apply in_app_or in Hin. destruct Hin as [Hin|Hin].
    - apply (remove_gone a1 y); [|exact Hin].
      apply Na. rewrite Ha0. now apply real_args_NoDup.
    - apply (Hdis y Hin). eapply keys_In. exact Hya1. }
  split; [reflexivity|]. split; [|split].
  - intros Hin. apply Hgone. eapply filter_keys_incl. exact Hin.
  - intros Hin. apply Hgone. eapply filter_keys_incl. exact Hin.
  - unfold getAllArgs. simpl. rewrite Ha0. apply in_or_app. now left.
Qed.

(** [h(a, b, c, t=AUTO_TOPIC, u=None)] with [a] excluded. *)
Lemma auto_topic_parameter_witness :
  exists info,
    CallArgsInfo_init spec_h 0 (Some ["a"]) = Ok info /\
    autoTopicArgName info = Some "t" /\
    ~ In "t" (getRequiredArgs info) /\
    ~ In "t" (getOptionalArgs info) /\
    In "t" (getAllArgs info).
Proof.
  apply (auto_topic_parameter spec_h 0 (Some ["a"]) [VStr AUTO_TOPIC; VNone]
           "t" (VStr AUTO_TOPIC)).
  - unfold distinct_names. simpl. solve_NoDup.
  - reflexivity.
  - simpl. lia.
  - simpl. left. reflexivity.
  - reflexivity.
  - simpl. intros n w [H|[H|[]]] Hw; inversion H; subst; [reflexivity|discriminate].
  - intros kd n w H. discriminate.
  - simpl. tauto.
  - simpl. intuition discriminate.
  - left. reflexivity.
Defined.

(** ** Where the construction is total *)

Lemma set_In (d : Dict.t) (k : string) (v : PyVal) (e : string * PyVal) :
  In e (Dict.set d k v) -> e = (k, v) \/ In e d.
Proof.
  induction d as [|[k' v'] d IH]; simpl.
  - intros [H|[]]. now left.
  - destruct (String.eqb_spec k k') as [->|Hne]; simpl.
    + intros [H|H]; auto.
    + intros [H|H]; auto. destruct (IH H); auto.
Qed.

Lemma set_all_In (es : list (string * PyVal)) :
  forall (d : Dict.t) (e : string * PyVal),
    In e (set_all es d) -> In e es \/ In e d.
Proof.
  induction es as [|[n w] es IH]; intros d e; simpl; [auto|].
  intros H. destruct (IH _ _ H) as [H'|H']; auto.
  destruct (set_In _ _ _ _ H'); auto.
Qed.

Lemma setupAutoTopic_scan_total (items a : Dict.t) :
  (forall n w, In (n, w) items -> eq_AUTO_TOPIC w = true -> In n (Dict.keys a)) ->
  exists r, setupAutoTopic_scan items a = Ok r.
Proof.
  induction items as [|[n w] items IH]; intros H; simpl; [eauto|].
  destruct (eq_AUTO_TOPIC w) eqn:Hw.
  - unfold Dict.del. assert (Hm : Dict.mem n a = true).
    { apply mem_In. apply (H n w); [now left|exact Hw]. }
    rewrite Hm. simpl. eauto.
  - apply IH. intros n' w' Hin. apply H. now right.
Qed.

(** When [defaults] is [None] or a non-empty tuple, as [getfullargspec]
    returns it, and no keyword-only parameter declares the marker, the
    constructor returns a descriptor for every exclusion list. *)
Lemma CallArgsInfo_init_total (spec : FullArgSpec) (off : Z)
    (ignoreArgs : option (list string)) :
  (forall ds, defaults spec = Some ds -> (1 <= List.length ds)%nat) ->
  (forall kd n w, kwonlydefaults spec = Some kd -> In (n, w) kd ->
                  eq_AUTO_TOPIC w = false) ->
  exists info, CallArgsInfo_init spec off ignoreArgs = Ok info.
Proof.
  intros HD Hkw. rewrite CallArgsInfo_init_unfold.
  assert (Hfill : exists a0,
             fill_allArgs (args spec) (defaults spec) off (args spec) 0 [] = Ok a0).
  { destruct (Z.gtb_spec off 0) as [Hoff|Hoff].
    - destruct (args spec) as [|r rest] eqn:Ea; [simpl; eauto|].
      rewrite fill_allArgs_skip by lia.
      rewrite fill_allArgs_run; [eauto|reflexivity|lia|].
      intros ds E. split; [auto|]. simpl List.length. lia.
    - rewrite fill_allArgs_run; [eauto| |lia|].
      + destruct (Z.gtb_spec off 0); [lia|]. apply andb_false_r.
      + intros ds E. split; [auto|]. simpl. lia. }
  destruct Hfill as [a0 Hfill]. rewrite Hfill. simpl bind.
  rewrite fill_allKwargs_run. simpl bind.
  set (k0 := set_all _ []).
  destruct (drop_ignored_run (ign_list ignoreArgs) a0 k0)
    as (a1 & k1 & E & Ia & Ik & Na & Nk & Ra & Rk).
  rewrite E. simpl bind. unfold __setupAutoTopic, _combinedDict. simpl fst. simpl snd.
  destruct (setupAutoTopic_scan_total (Dict.merge a1 k1) a1) as [r Hr].
  - intros n w Hin Hw. unfold Dict.merge in Hin. fold (set_all k1 a1) in Hin.
    apply set_all_In in Hin. destruct Hin as [Hin|Hin]; [|eapply keys_In; eauto].
    exfalso. apply Ik in Hin. unfold k0 in Hin. apply set_all_In in Hin.
    destruct Hin as [Hin|[]]. apply in_map_iff in Hin. destruct Hin as (n' & E' & _).
    inversion E'; subst n' w.
    destruct (kw_value_In (kwonlydefaults spec) n) as [E''|(kd & Hkd & Hin)].
    + rewrite E'' in Hw. discriminate.
    + rewrite (Hkw kd n _ Hkd Hin) in Hw. discriminate.
  - rewrite Hr. simpl. eauto.
Qed.

(** ** The reported names *)

Lemma not_excluded_In (ign : list string) (n : string) :
  not_excluded ign n = true <-> ~ In n ign.
Proof.
  unfold not_excluded. rewrite negb_true_iff. split.
  - intros H Hin. assert (E : existsb (String.eqb n) ign = true).
    { apply existsb_exists. exists n. split; [exact Hin|apply String.eqb_refl]. }
    congruence.
  - intros H. destruct (existsb (String.eqb n) ign) eqn:E; [|reflexivity].
    exfalso. apply H. apply existsb_exists in E. destruct E as (x & Hx & E).
    apply String.eqb_eq in E. now subst.
Qed.

Lemma keep_cons_other (x : string) (rest : list string) (e : string * PyVal) :
  fst e <> x -> keep (x :: rest) e = keep rest e.
Proof.
  intros H. unfold keep, not_excluded. simpl.
  destruct (String.eqb_spec (fst e) x); [contradiction|reflexivity].
Qed.

Lemma filter_keep_absent (x : string) (rest : list string) (d : Dict.t) :
  ~ In x (Dict.keys d) -> filter (keep (x :: rest)) d = filter (keep rest) d.
Proof.
  intros H. apply filter_ext_in. intros e He. apply keep_cons_other.
  intros E. apply H. unfold Dict.keys. apply in_map_iff. exists e. auto.
Qed.

Lemma filter_keep_remove (x : string) (rest : list string) (d : Dict.t) :
  NoDup (Dict.keys d) ->
  filter (keep rest) (Dict.remove d x) = filter (keep (x :: rest)) d.
Proof.
  induction d as [|[k v] d IH]; intros Hnd; [reflexivity|].
  inversion Hnd as [|? ? Hnotin Hnd']; subst. simpl Dict.remove.
  destruct (String.eqb_spec x k) as [->|Hne].
  - simpl filter. unfold keep at 2, not_excluded. simpl.
    rewrite String.eqb_refl. simpl. symmetry. now apply filter_keep_absent.
  - simpl filter. rewrite keep_cons_other by (simpl; congruence).
    rewrite IH by assumption. reflexivity.
Qed.

Lemma filter_keys_NoDup (P : string * PyVal -> bool) (d : Dict.t) :
  NoDup (Dict.keys d) -> NoDup (Dict.keys (filter P d)).
Proof.
  induction d as [|[k v] d IH]; intros Hnd; simpl; [constructor|].
  inversion Hnd as [|? ? Hnotin Hnd']; subst.
  destruct (P (k, v)); simpl; auto.
  constructor; auto. intros Hin. apply Hnotin.
  unfold Dict.keys in *. apply in_map_iff in Hin. destruct Hin as (e & E & He).
  apply filter_In in He. apply in_map_iff. exists e. tauto.
Qed.

(** With unique keys and no key in both dictionaries, the exclusion loop
    filters both by the list. *)
Lemma drop_ignored_filter (ign : list string) :
  forall a k : Dict.t,
    NoDup (Dict.keys a) -> NoDup (Dict.keys k) ->
    (forall x, In x (Dict.keys k) -> ~ In x (Dict.keys a)) ->
    drop_ignored ign a k = Ok (filter (keep ign) a, filter (keep ign) k).
Proof.
  induction ign as [|x rest IH]; intros a k Na Nk Hdis.
  - simpl. unfold keep, not_excluded. simpl. now rewrite !filter_true.
  - simpl. unfold Dict.del.
    destruct (Dict.mem x a) eqn:Ha; simpl.
    + rewrite IH.
      * rewrite filter_keep_remove by assumption.
        rewrite (filter_keep_absent x rest k); [reflexivity|].
        intros Hk. apply (Hdis x Hk). now apply mem_In.
      * now apply remove_keys_NoDup.
      * assumption.
      * intros y Hy Hin. apply (Hdis y Hy). eapply remove_keys_incl; eauto.
    + apply mem_false in Ha. destruct (Dict.mem x k) eqn:Hk; simpl.
      * rewrite IH.
        -- rewrite filter_keep_remove by assumption.
           now rewrite (filter_keep_absent x rest a).
        -- assumption.
        -- now apply remove_keys_NoDup.
        -- intros y Hy. apply Hdis. eapply remove_keys_incl; eauto.
      * apply mem_false in Hk. rewrite IH by assumption.
        now rewrite (filter_keep_absent x rest a), (filter_keep_absent x rest k).
Qed.

Lemma NoDup_keys_functional (d : Dict.t) (k : string) (v w : PyVal) :
  NoDup (Dict.keys d) -> In (k, v) d -> In (k, w) d -> v = w.
Proof.
  induction d as [|[k' v'] d IH]; intros Hnd Hv Hw; [destruct Hv|].
  simpl in Hnd. inversion Hnd as [|? ? Hnotin Hnd']; subst.
  destruct Hv as [Hv|Hv], Hw as [Hw|Hw].
  - congruence.
  - inversion Hv; subst. exfalso. apply Hnotin. eapply keys_In; eauto.
  - inversion Hw; subst. exfalso. apply Hnotin. eapply keys_In; eauto.
  - now apply IH.
Qed.

Section Built.

Variables (spec : FullArgSpec) (off : Z) (ign : list string)
          (info : CallArgsInfo) (a0 k0 a1 k1 : Dict.t).
Hypothesis Hd : distinct_names spec.
Hypothesis B : built spec off ign info a0 k0 a1 k1.

Lemma built_a0_NoDup : NoDup (Dict.keys a0).
Proof.
  rewrite (b_a0_exact B (distinct_names_args Hd)).
  apply real_args_NoDup. now apply distinct_names_args.
Qed.

Lemma built_k0_NoDup : NoDup (Dict.keys k0).
Proof.
  rewrite (b_k0_exact B (distinct_names_kwonly Hd)).
  unfold Dict.keys. rewrite map_map. simpl. rewrite map_id.
  now apply distinct_names_kwonly.
Qed.

Lemma built_disjoint0 (x : string) :
  In x (Dict.keys k0) -> ~ In x (Dict.keys a0).
Proof.
  intros Hk Ha. apply (b_k0_keys B) in Hk. apply (b_a0_keys B) in Ha.
  apply real_args_incl in Ha. now apply (distinct_names_disjoint x Hd).
Qed.

Lemma built_filtered :
  a1 = filter (keep ign) a0 /\ k1 = filter (keep ign) k0.
Proof.
  pose proof (b_drop B) as E.
  rewrite (drop_ignored_filter ign a0 k0 built_a0_NoDup built_k0_NoDup
             built_disjoint0) in E.
  inversion E. auto.
Qed.

Lemma built_disjoint1 (x : string) :
  In x (Dict.keys k1) -> ~ In x (Dict.keys a1).
Proof.
  intros Hk Ha.
  apply In_keys in Hk. destruct Hk as [wk Hk]. apply (b_k1_incl B), keys_In in Hk.
  apply In_keys in Ha. destruct Ha as [wa Ha]. apply (b_a1_incl B), keys_In in Ha.
  now apply (built_disjoint0 x).
Qed.

(** The two outcomes of the scan, read on the descriptor. *)
Lemma built_topic :
  (autoTopicArgName info = None /\ allArgs info = a1) \/
  (exists y v, autoTopicArgName info = Some y /\ In (y, v) a1 /\
               eq_AUTO_TOPIC v = true /\ allArgs info = Dict.remove a1 y).
Proof.
  destruct (setupAutoTopic_scan_inv _ _ (b_scan B))
    as [[E1 E2]|(y & v & E1 & Hin & Hv & Hy & E2)]; [now left|].
  right. exists y, v. repeat split; auto.
  rewrite merge_disjoint in Hin by (auto using built_disjoint1; apply (b_k1_NoDup B)).
  apply in_app_or in Hin. destruct Hin as [Hin|Hin]; [exact Hin|].
  exfalso. apply keys_In in Hin. now apply (built_disjoint1 y).
Qed.

Lemma built_final_NoDup :
  NoDup (Dict.keys (allArgs info ++ allKwargs info)).
Proof.
  unfold Dict.keys. rewrite map_app. apply NoDup_app.
  - destruct built_topic as [[_ E]|(y & v & _ & _ & _ & E)]; rewrite E.
    + apply (b_a1_NoDup B).
    + apply remove_keys_NoDup. apply (b_a1_NoDup B).
  - rewrite (b_kwargs B). apply (b_k1_NoDup B).
  - intros x Ha Hk. rewrite (b_kwargs B) in Hk.
    apply (built_disjoint1 x Hk).
    destruct built_topic as [[_ E]|(y & v & _ & _ & _ & E)]; rewrite E in Ha.
    + exact Ha.
    + eapply remove_keys_incl; eauto.
Qed.

(** An entry written by the first loop is still there at the end when its
    name is not excluded and its value is not the marker. *)
Lemma built_args_survive (n : string) (w : PyVal) :
  In (n, w) a0 -> ~ In n ign -> eq_AUTO_TOPIC w = false ->
  In (n, w) (allArgs info).
Proof.
  intros Hin Hn Hw. pose proof (b_a1_keep B n w Hn Hin) as H1.
  destruct built_topic as [[_ E]|(y & v & _ & Hy & Hv & E)]; rewrite E; [exact H1|].
  apply remove_other; [exact H1|]. intros ->.
  assert (v = w) by (apply (NoDup_keys_functional a1 y); auto; apply (b_a1_NoDup B)).
  congruence.
Qed.

Lemma built_kwargs_survive (n : string) (w : PyVal) :
  In (n, w) k0 -> ~ In n ign -> In (n, w) (allKwargs info).
Proof. intros Hin Hn. rewrite (b_kwargs B). now apply (b_k1_keep B). Qed.

(** No name of the exclusion list is a key at the end. *)
Lemma built_final_not_excluded (n : string) :
  In n (Dict.keys (allArgs info ++ allKwargs info)) -> ~ In n ign.
Proof.
  destruct built_filtered as [Ea Ek].
  assert (Hkeep : forall d, In n (Dict.keys (filter (keep ign) d)) -> ~ In n ign).
  { intros d Hin. apply In_keys in Hin. destruct Hin as [w Hin].
    apply filter_In in Hin. destruct Hin as [_ Hk].
    unfold keep in Hk. simpl in Hk. now apply not_excluded_In. }
  unfold Dict.keys. rewrite map_app. intros Hin.
  apply in_app_or in Hin. destruct Hin as [Hin|Hin].
  - apply (Hkeep a0). rewrite <- Ea.
    destruct built_topic as [[_ E]|(y & v & _ & _ & _ & E)]; rewrite E in Hin.
    + exact Hin.
    + eapply remove_keys_incl; eauto.
  - apply (Hkeep k0). rewrite <- Ek. now rewrite (b_kwargs B) in Hin.
Qed.

End Built.

Lemma entry_reported (info : CallArgsInfo) (n : string) (w : PyVal) :
  In (n, w) (allArgs info ++ allKwargs info) ->
  (is_NO_DEFAULT w = true -> In n (getRequiredArgs info)) /\
  (is_NO_DEFAULT w = false -> In n (getOptionalArgs info)).
Proof.
  intros Hin. unfold getRequiredArgs, getOptionalArgs. split; intros Hw.
  - apply in_map_iff. exists (n, w). split; [reflexivity|].
    apply filter_In. auto.
  - apply in_map_iff. exists (n, w). split; [reflexivity|].
    apply filter_In. split; [exact Hin|]. simpl. now rewrite Hw.
Qed.

Lemma reported_entry (info : CallArgsInfo) (n : string) :
  (In n (getRequiredArgs info) ->
   exists w, In (n, w) (allArgs info ++ allKwargs info) /\ is_NO_DEFAULT w = true) /\
  (In n (getOptionalArgs info) ->
   exists w, In (n, w) (allArgs info ++ allKwargs info) /\ is_NO_DEFAULT w = false).
Proof.
  unfold getRequiredArgs, getOptionalArgs. split; intros Hin;
    apply in_map_iff in Hin; destruct Hin as ([n' w] & E & Hin); simpl in E; subst n';
    apply filter_In in Hin; destruct Hin as [Hin Hw]; simpl in Hw; exists w.
  - auto.
  - split; [exact Hin|]. now apply negb_true_iff.
Qed.

(** X1.  No name is reported twice, and none is reported both as required
    and as optional. *)
Theorem reported_names_NoDup (spec : FullArgSpec) (off : Z)
    (ignoreArgs : option (list string)) (info : CallArgsInfo) :
  distinct_names spec ->
  CallArgsInfo_init spec off ignoreArgs = Ok info ->
  NoDup (getRequiredArgs info ++ getOptionalArgs info).
Proof.
  intros Hd H.
  destruct (CallArgsInfo_init_inv _ _ _ H) as (a0 & k0 & a1 & k1 & B).
  pose proof (built_final_NoDup _ _ _ _ _ _ _ _ Hd B) as Hnd.
  apply NoDup_app.
  - apply (filter_keys_NoDup _ _ Hnd).
  - apply (filter_keys_NoDup _ _ Hnd).
  - intros n Hr Ho.
    apply (proj1 (reported_entry info n)) in Hr. destruct Hr as (w1 & H1 & E1).
    apply (proj2 (reported_entry info n)) in Ho. destruct Ho as (w2 & H2 & E2).
    assert (w1 = w2) by (eapply NoDup_keys_functional; eauto).
    congruence.
Qed.

Lemma reported_names_NoDup_witness :
  distinct_names spec_h /\
  CallArgsInfo_init spec_h 0 (Some ["a"]) = Ok h_info /\
  NoDup (getRequiredArgs h_info ++ getOptionalArgs h_info).
Proof.
  assert (Hd : distinct_names spec_h) by (unfold distinct_names; simpl; solve_NoDup).
  split; [exact Hd|]. split; [reflexivity|].
  exact (reported_names_NoDup spec_h 0 (Some ["a"]) h_info Hd eq_refl).
Defined.

(** X2.  A name is reported, as required or as optional, exactly when it is
    one of [getAllArgs], is not in the exclusion list and is not the
    auto-topic parameter. *)
Theorem reported_names (spec : FullArgSpec) (off : Z)
    (ignoreArgs : option (list string)) (info : CallArgsInfo) (n : string) :
  distinct_names spec ->
  CallArgsInfo_init spec off ignoreArgs = Ok info ->
  (In n (getRequiredArgs info) \/ In n (getOptionalArgs info)) <->
  (In n (getAllArgs info) /\ ~ In n (ign_list ignoreArgs) /\
   autoTopicArgName info <> Some n).
Proof.
  intros Hd H.
  destruct (CallArgsInfo_init_inv _ _ _ H) as (a0 & k0 & a1 & k1 & B).
  pose proof (allParams_names _ _ _ _ Hd H) as Hall. unfold getAllArgs.
  split.
  - intros Hrep.
    assert (Hkey : In n (Dict.keys (allArgs info ++ allKwargs info))).
    { destruct Hrep as [Hr|Ho].
      - apply (proj1 (reported_entry info n)) in Hr. destruct Hr as (w & Hw & _).
        eapply keys_In; eauto.
      - apply (proj2 (reported_entry info n)) in Ho. destruct Ho as (w & Hw & _).
        eapply keys_In; eauto. }
    split; [|split].
    + rewrite Hall. apply in_or_app. eapply built_final_keys; eauto.
    + eapply built_final_not_excluded; eauto.
    + intros Ht.
      destruct (built_topic _ _ _ _ _ _ _ _ Hd B)
        as [[E _]|(y & v & E & Hy & _ & Ea)]; [congruence|].
      rewrite Ht in E. inversion E; subst y.
      unfold Dict.keys in Hkey. rewrite map_app in Hkey.
      apply in_app_or in Hkey. destruct Hkey as [Hk|Hk].
      * rewrite Ea in Hk. apply (remove_gone a1 n (b_a1_NoDup B)). exact Hk.
      * rewrite (b_kwargs B) in Hk.
        apply (built_disjoint1 _ _ _ _ _ _ _ _ Hd B n Hk). eapply keys_In; eauto.
  - intros (Hin & Hn & Ht). rewrite Hall in Hin.
    rewrite <- (b_a0_exact B (distinct_names_args Hd)) in Hin.
    assert (Hk0 : Dict.keys k0 = kwonlyargs spec).
    { rewrite (b_k0_exact B (distinct_names_kwonly Hd)).
      unfold Dict.keys. rewrite map_map. simpl. now rewrite map_id. }
    rewrite <- Hk0 in Hin.
    assert (Hentry : exists w, In (n, w) (allArgs info ++ allKwargs info)).
    { apply in_app_or in Hin. destruct Hin as [Hin|Hin];
        apply In_keys in Hin; destruct Hin as [w Hin]; exists w; apply in_or_app.
      - left. pose proof (b_a1_keep B n w Hn Hin) as H1.
        destruct (built_topic _ _ _ _ _ _ _ _ Hd B)
          as [[_ E]|(y & v & Ey & _ & _ & E)]; rewrite E; [exact H1|].
        apply remove_other; [exact H1|]. congruence.
      - right. now apply (built_kwargs_survive _ _ _ _ _ _ _ _ B). }
    destruct Hentry as [w Hw].
    destruct (entry_reported info n w Hw) as [Hreq Hopt].
    destruct (is_NO_DEFAULT w); auto.
Qed.

(** [b] and [c] of [h] are reported once [a] is excluded and [t] is taken
    as the auto-topic parameter. *)
Lemma reported_names_witness :
  (In "b" (getRequiredArgs h_info) \/ In "b" (getOptionalArgs h_info)) /\
  In "a" (getAllArgs h_info) /\
  ~ (In "a" (getRequiredArgs h_info) \/ In "a" (getOptionalArgs h_info)) /\
  ~ (In "t" (getRequiredArgs h_info) \/ In "t" (getOptionalArgs h_info)).
Proof.
  assert (Hd : distinct_names spec_h) by (unfold distinct_names; simpl; solve_NoDup).
  pose proof (fun n => reported_names spec_h 0 (Some ["a"]) h_info n Hd eq_refl) as R.
  split; [|split; [|split]].
  - apply (proj2 (R "b")). split; [simpl; tauto|].
    split; [simpl; intuition discriminate|discriminate].
  - simpl. tauto.
  - intros H. apply (proj1 (R "a")) in H. destruct H as (_ & Hn & _).
    apply Hn. simpl. tauto.
  - intros H. apply (proj1 (R "t")) in H. destruct H as (_ & _ & Ht).
    apply Ht. reflexivity.
Defined.

Lemma reported_disjoint (spec : FullArgSpec) (off : Z)
    (ignoreArgs : option (list string)) (info : CallArgsInfo) (n : string) :
  distinct_names spec ->
  CallArgsInfo_init spec off ignoreArgs = Ok info ->
  In n (getRequiredArgs info) -> In n (getOptionalArgs info) -> False.
Proof.
  intros Hd H Hr Ho.
  destruct (CallArgsInfo_init_inv _ _ _ H) as (a0 & k0 & a1 & k1 & B).
  pose proof (built_final_NoDup _ _ _ _ _ _ _ _ Hd B) as Hnd.
  apply (proj1 (reported_entry info n)) in Hr. destruct Hr as (w1 & H1 & E1).
  apply (proj2 (reported_entry info n)) in Ho. destruct Ho as (w2 & H2 & E2).
  assert (w1 = w2) by (eapply NoDup_keys_functional; eauto).
  congruence.
Qed.

Lemma py_index_In {A : Type} (l : list A) (k : Z) (a : A) :
  py_index l k = Ok a -> In a l.
Proof.
  unfold py_index. cbv zeta.
  destruct (_ || _); [discriminate|].
  destruct (nth_error l _) eqn:E; [|discriminate].
  intros H. inversion H; subst. eapply nth_error_In; eauto.
Qed.

(** Every value the first loop writes is [NO_DEFAULT] or an element of
    [defaults]. *)
Lemma fill_allArgs_values (all_args : list string) (dso : option (list PyVal))
    (off : Z) (vars : list string) :
  forall (i : Z) (d d' : Dict.t),
    fill_allArgs all_args dso off vars i d = Ok d' ->
    forall n w, In (n, w) d' ->
      In (n, w) d \/ w = VNoDefault \/ exists ds, dso = Some ds /\ In w ds.
Proof.
  induction vars as [|v rest IH]; intros i d d' H n w Hin.
  - simpl in H. inversion H; subst. now left.
  - simpl in H.
    assert (Hgo : forall val,
              (val = VNoDefault \/ exists ds, dso = Some ds /\ In val ds) ->
              fill_allArgs all_args dso off rest (i + 1) (Dict.set d v val) = Ok d' ->
              In (n, w) d \/ w = VNoDefault \/ exists ds, dso = Some ds /\ In w ds).
    { intros val Hval Hf. destruct (IH _ _ _ Hf n w Hin) as [Hs|Hs]; [|now right].
      apply set_In in Hs. destruct Hs as [Hs|Hs]; [|now left].
      inversion Hs; subst. now right. }
    destruct ((i =? 0) && (off >? 0)); [eapply IH; eauto|].
    destruct dso as [ds|]; [|apply (Hgo VNoDefault); auto].
    cbv zeta in H.
    destruct (i <? argsDefaults_startsAt all_args ds); [apply (Hgo VNoDefault); auto|].
    destruct (py_index ds _) as [val|e] eqn:Hp; simpl in H; [|discriminate].
    apply (Hgo val); [|exact H]. right. exists ds. split; [reflexivity|].
    eapply py_index_In; eauto.
Qed.

(** X3.  The recorded auto-topic parameter is an ordinary parameter after
    the receiver that is not excluded; it is reported neither as required
    nor as optional, [getAllArgs] returns it, and the marker is one of the
    ordinary defaults. *)
Theorem auto_topic_sound (spec : FullArgSpec) (off : Z)
    (ignoreArgs : option (list string)) (info : CallArgsInfo) (y : string) :
  distinct_names spec ->
  CallArgsInfo_init spec off ignoreArgs = Ok info ->
  autoTopicArgName info = Some y ->
  In y (real_args spec off) /\
  ~ In y (ign_list ignoreArgs) /\
  ~ In y (getRequiredArgs info) /\
  ~ In y (getOptionalArgs info) /\
  In y (getAllArgs info) /\
  exists ds v, defaults spec = Some ds /\ In v ds /\ eq_AUTO_TOPIC v = true.
Proof.
  intros Hd H Ht.
  destruct (CallArgsInfo_init_inv _ _ _ H) as (a0 & k0 & a1 & k1 & B).
  destruct (built_topic _ _ _ _ _ _ _ _ Hd B)
    as [[E _]|(y' & v & E & Hy & Hv & Ea)]; [congruence|].
  rewrite Ht in E. inversion E; subst y'. clear E.
  pose proof (b_a1_incl B _ Hy) as Hy0.
  assert (Hreal : In y (real_args spec off)).
  { apply (b_a0_keys B). eapply keys_In; eauto. }
  assert (Hgone : ~ In y (Dict.keys (allArgs info ++ allKwargs info))).
  { unfold Dict.keys. rewrite map_app. intros Hin.
    apply in_app_or in Hin. destruct Hin as [Hin|Hin].
    - rewrite Ea in Hin. now apply (remove_gone a1 y (b_a1_NoDup B)).
    - rewrite (b_kwargs B) in Hin.
      apply (built_disjoint1 _ _ _ _ _ _ _ _ Hd B y Hin). eapply keys_In; eauto. }
  split; [exact Hreal|]. split; [|split; [|split; [|split]]].
  - destruct (built_filtered _ _ _ _ _ _ _ _ Hd B) as [Ef _].
    rewrite Ef in Hy. apply filter_In in Hy. destruct Hy as [_ Hk].
    now apply not_excluded_In.
  - intros Hin. apply Hgone. eapply filter_keys_incl. exact Hin.
  - intros Hin. apply Hgone. eapply filter_keys_incl. exact Hin.
  - unfold getAllArgs. rewrite (allParams_names _ _ _ _ Hd H).
    apply in_or_app. now left.
  - destruct (fill_allArgs_values _ _ _ _ _ _ _ (b_fill B) y v Hy0)
      as [[]|[->|(ds & Eds & Hin)]]; [discriminate|].
    exists ds, v. auto.
Qed.

Lemma auto_topic_sound_witness :
  In "t" (real_args spec_h 0) /\
  ~ In "t" ["a"] /\
  ~ In "t" (getRequiredArgs h_info) /\
  ~ In "t" (getOptionalArgs h_info) /\
  In "t" (getAllArgs h_info) /\
  exists ds v, defaults spec_h = Some ds /\ In v ds /\ eq_AUTO_TOPIC v = true.
Proof.
  apply (auto_topic_sound spec_h 0 (Some ["a"]) h_info "t").
  - unfold distinct_names. simpl. solve_NoDup.
  - reflexivity.
  - reflexivity.
Defined.

Lemma CallArgsInfo_init_flags (spec : FullArgSpec) (off : Z)
    (ignoreArgs : option (list string)) (info : CallArgsInfo) :
  CallArgsInfo_init spec off ignoreArgs = Ok info ->
  acceptsAllKwargs info
  = (if name_in (varkw spec) (ign_list ignoreArgs) then false
     else match varkw spec with Some _ => true | None => false end) /\
  acceptsAllUnnamedArgs info
  = (if name_in (varargs spec) (ign_list ignoreArgs) then false
     else match varargs spec with Some _ => true | None => false end).
Proof.
  rewrite CallArgsInfo_init_unfold.
  destruct (fill_allArgs _ _ _ _ _ _) as [a0|e]; [|discriminate]. simpl bind.
  destruct (fill_allKwargs _ _ _) as [k0|e]; [|discriminate]. simpl bind.
  destruct (drop_ignored _ _ _) as [ak|e]; [|discriminate]. simpl bind.
  destruct (__setupAutoTopic _ _) as [r|e]; [|discriminate]. simpl bind.
  intros H. inversion H. simpl. auto.
Qed.

Lemma name_in_iff (name : option string) (ign : list string) :
  (if name_in name ign then false
   else match name with Some _ => true | None => false end) = true <->
  exists n, name = Some n /\ ~ In n ign.
Proof.
  destruct name as [n|]; simpl.
  - pose proof (not_excluded_In ign n) as Hx. unfold not_excluded in Hx.
    destruct (existsb (String.eqb n) ign); simpl in Hx.
    + split; [discriminate|]. intros (m & Em & Hm). inversion Em; subst m.
      apply Hx in Hm. discriminate.
    + split; [|reflexivity]. intros _. exists n. split; [reflexivity|].
      now apply Hx.
  - split; [discriminate|]. intros (m & Em & _). discriminate.
Qed.

(** X4.  A descriptor accepts extra positional arguments exactly when the
    signature has a catch-all [*name] that is not in the exclusion list,
    and extra keyword arguments exactly when it has a [**name] that is not
    in the exclusion list. *)
Theorem accepts_flags (spec : FullArgSpec) (off : Z)
    (ignoreArgs : option (list string)) (info : CallArgsInfo) :
  CallArgsInfo_init spec off ignoreArgs = Ok info ->
  (acceptsAllUnnamedArgs info = true <->
   exists n, varargs spec = Some n /\ ~ In n (ign_list ignoreArgs)) /\
  (acceptsAllKwargs info = true <->
   exists n, varkw spec = Some n /\ ~ In n (ign_list ignoreArgs)).
Proof.
  intros H. destruct (CallArgsInfo_init_flags _ _ _ _ H) as [Ek Eu].
  rewrite Ek, Eu. split; apply name_in_iff.
Qed.

(** [k(a, *rest, flag=None, **extra)] with [extra] excluded. *)
Lemma accepts_flags_witness :
  exists info,
    CallArgsInfo_init spec_k 0 (Some ["extra"]) = Ok info /\
    acceptsAllUnnamedArgs info = true /\
    acceptsAllKwargs info = false.
Proof.
  eexists. split; [reflexivity|].
  destruct (accepts_flags spec_k 0 (Some ["extra"]) _ eq_refl) as [Hu Hk].
  split.
  - apply Hu. exists "rest". split; [reflexivity|]. simpl. intuition discriminate.
  - apply not_true_is_false. intros H. apply Hk in H.
    destruct H as (n & E & Hn). inversion E; subst n. apply Hn. simpl. tauto.
Defined.

Lemma get_not_mem (d : Dict.t) (k : string) :
  Dict.mem k d = false -> Dict.get d k = Raise (KeyError k).
Proof.
  induction d as [|[k' v'] d IH]; simpl; [reflexivity|].
  destruct (String.eqb k k'); simpl; [discriminate|exact IH].
Qed.

(** X5.  A keyword-only parameter that is not excluded is required when
    [kwonlydefaults] has no entry for it, and otherwise is stored with its
    declared default and is optional. *)
Theorem keyword_only_status (spec : FullArgSpec) (off : Z)
    (ignoreArgs : option (list string)) (info : CallArgsInfo) (n : string) :
  distinct_names spec ->
  CallArgsInfo_init spec off ignoreArgs = Ok info ->
  In n (kwonlyargs spec) ->
  ~ In n (ign_list ignoreArgs) ->
  ((kwonlydefaults spec = None \/
    exists kd, kwonlydefaults spec = Some kd /\ Dict.mem n kd = false) ->
   In n (getRequiredArgs info) /\ ~ In n (getOptionalArgs info)) /\
  (forall kd v,
      kwonlydefaults spec = Some kd -> Dict.get kd n = Ok v ->
      In (n, v) (allKwargs info) /\
      (is_NO_DEFAULT v = false ->
       In n (getOptionalArgs info) /\ ~ In n (getRequiredArgs info))).
Proof.
  intros Hd H Hn Hign.
  destruct (CallArgsInfo_init_inv _ _ _ H) as (a0 & k0 & a1 & k1 & B).
  assert (Hk : In (n, kw_value (kwonlydefaults spec) n) (allKwargs info)).
  { apply (built_kwargs_survive _ _ _ _ _ _ _ _ B); [|exact Hign].
    rewrite (b_k0_exact B (distinct_names_kwonly Hd)).
    apply in_map_iff. exists n. auto. }
  split.
  - intros Hno.
    assert (E : kw_value (kwonlydefaults spec) n = VNoDefault).
    { destruct Hno as [E|(kd & E & Hm)]; unfold kw_value; rewrite E; [reflexivity|].
      now rewrite (get_not_mem _ _ Hm). }
    rewrite E in Hk.
    assert (Hr : In n (getRequiredArgs info)).
    { apply (proj1 (entry_reported info n VNoDefault (in_or_app _ _ _ (or_intror Hk)))).
      reflexivity. }
    split; [exact Hr|]. intros Ho. eapply reported_disjoint; eauto.
  - intros kd v Ekd Hget.
    assert (E : kw_value (kwonlydefaults spec) n = v).
    { unfold kw_value. now rewrite Ekd, Hget. }
    rewrite E in Hk. split; [exact Hk|]. intros Hv.
    assert (Ho : In n (getOptionalArgs info)).
    { apply (proj2 (entry_reported info n v (in_or_app _ _ _ (or_intror Hk)))).
      exact Hv. }
    split; [exact Ho|]. intros Hr. eapply reported_disjoint; eauto.
Qed.

(** [f(a, b=1, *, c, d=2)]: [c] is required, [d] is optional with default
    [2]. *)
Lemma keyword_only_status_witness :
  exists info,
    CallArgsInfo_init spec_f 0 None = Ok info /\
    In "c" (getRequiredArgs info) /\
    In ("d", VInt 2) (allKwargs info) /\
    In "d" (getOptionalArgs info).
Proof.
  assert (Hd : distinct_names spec_f) by (unfold distinct_names; simpl; solve_NoDup).
  eexists. split; [reflexivity|].
  split; [|split].
  - refine (proj1 (proj1 (keyword_only_status spec_f 0 None _ "c" Hd eq_refl _ _) _)).
    + simpl. tauto.
    + simpl. tauto.
    + right. exists [("d", VInt 2)]. split; reflexivity.
  - refine (proj1 (proj2 (keyword_only_status spec_f 0 None _ "d" Hd eq_refl _ _)
                     [("d", VInt 2)] (VInt 2) eq_refl eq_refl)).
    + simpl. tauto.
    + simpl. tauto.
  - refine (proj1 (proj2 (proj2 (keyword_only_status spec_f 0 None _ "d" Hd eq_refl _ _)
                     [("d", VInt 2)] (VInt 2) eq_refl eq_refl) eq_refl)).
    + simpl. tauto.
    + simpl. tauto.
Defined.

Lemma built_stored (spec : FullArgSpec) (off : Z) (ign : list string)
    (info : CallArgsInfo) (a0 k0 a1 k1 : Dict.t) :
  distinct_names spec ->
  (forall ds, defaults spec = Some ds -> (1 <= List.length ds)%nat) ->
  built spec off ign info a0 k0 a1 k1 ->
  a0 = stored_args spec off.
Proof.
  intros Hd HD B. pose proof (b_fill B) as E.
  rewrite (fill_allArgs_built spec off (distinct_names_args Hd) HD) in E.
  now inversion E.
Qed.

(** X6.  An ordinary parameter after the receiver that declares a default
    other than the marker, and is not excluded, is stored with that default;
    it is optional unless the default is a [NO_DEFAULT] instance. *)
Theorem declared_default_kept (spec : FullArgSpec) (off : Z)
    (ignoreArgs : option (list string)) (info : CallArgsInfo)
    (ds : list PyVal) (y : string) (v : PyVal) :
  distinct_names spec ->
  defaults spec = Some ds ->
  (List.length ds <= List.length (args spec))%nat ->
  In (y, v) (declared_defaults spec) ->
  In y (real_args spec off) ->
  ~ In y (ign_list ignoreArgs) ->
  eq_AUTO_TOPIC v = false ->
  CallArgsInfo_init spec off ignoreArgs = Ok info ->
  In (y, v) (allArgs info) /\
  (is_NO_DEFAULT v = false ->
   In y (getOptionalArgs info) /\ ~ In y (getRequiredArgs info)).
Proof.
  intros Hd Hds Hlen Hy Hreal Hign Hv H.
  destruct (CallArgsInfo_init_inv _ _ _ H) as (a0 & k0 & a1 & k1 & B).
  assert (HD1 : forall ds0, defaults spec = Some ds0 -> (1 <= List.length ds0)%nat).
  { intros ds0 E. rewrite Hds in E. inversion E; subst ds0.
    unfold declared_defaults in Hy. rewrite Hds in Hy.
    destruct ds; [|simpl; lia]. rewrite combine_nil in Hy. destruct Hy. }
  assert (Hin : In (y, v) (allArgs info)).
  { apply (built_args_survive _ _ _ _ _ _ _ _ Hd B); [|exact Hign|exact Hv].
    rewrite (built_stored _ _ _ _ _ _ _ _ Hd HD1 B).
    apply (declared_stored spec off ds Hds Hlen y v (distinct_names_args Hd) Hy Hreal). }
  split; [exact Hin|]. intros Hnd.
  assert (Ho : In y (getOptionalArgs info)).
  { apply (proj2 (entry_reported info y v (in_or_app _ _ _ (or_introl Hin)))).
    exact Hnd. }
  split; [exact Ho|]. intros Hr. eapply reported_disjoint; eauto.
Qed.

(** [h(a, b, c, t=AUTO_TOPIC, u=None)]: [u] keeps its default [None]. *)
Lemma declared_default_kept_witness :
  In ("u", VNone) (allArgs h_info) /\
  (is_NO_DEFAULT VNone = false ->
   In "u" (getOptionalArgs h_info) /\ ~ In "u" (getRequiredArgs h_info)).
Proof.
  apply (declared_default_kept spec_h 0 (Some ["a"]) h_info
           [VStr AUTO_TOPIC; VNone] "u" VNone).
  - unfold distinct_names. simpl. solve_NoDup.
  - reflexivity.
  - simpl. lia.
  - simpl. tauto.
  - simpl. tauto.
  - simpl. intuition discriminate.
  - reflexivity.
  - reflexivity.
Defined.

(** X7.  An ordinary parameter after the receiver that is followed by
    another ordinary parameter without a declared default is required,
    unless it is excluded; so is every one when the signature declares no
    ordinary default. *)
Theorem leading_parameter_required (spec : FullArgSpec) (off : Z)
    (ignoreArgs : option (list string)) (info : CallArgsInfo)
    (j : nat) (n : string) :
  distinct_names spec ->
  defaults_ok spec ->
  nth_error (args spec) j = Some n ->
  (first_index off <= j)%nat ->
  (forall ds, defaults spec = Some ds ->
              (j + 1 + List.length ds < List.length (args spec))%nat) ->
  ~ In n (ign_list ignoreArgs) ->
  CallArgsInfo_init spec off ignoreArgs = Ok info ->
  In n (getRequiredArgs info) /\ ~ In n (getOptionalArgs info).
Proof.
  intros Hd Hok Hj Hfirst Hbefore Hign H.
  destruct (CallArgsInfo_init_inv _ _ _ H) as (a0 & k0 & a1 & k1 & B).
  assert (HD1 : forall ds0, defaults spec = Some ds0 -> (1 <= List.length ds0)%nat).
  { intros ds0 E. apply (Hok ds0 E). }
  assert (Hin : In (n, VNoDefault) (allArgs info)).
  { apply (built_args_survive _ _ _ _ _ _ _ _ Hd B); [|exact Hign|reflexivity].
    rewrite (built_stored _ _ _ _ _ _ _ _ Hd HD1 B).
    unfold stored_args. apply entries_from_In.
    exists (j - first_index off)%nat. split.
    - rewrite real_args_nth_error. rewrite <- Hj. f_equal. lia.
    - unfold value_at. destruct (defaults spec) as [ds|] eqn:Eds; [|reflexivity].
      pose proof (Hbefore ds eq_refl) as Hlt. unfold argsDefaults_startsAt.
      destruct (Z.ltb_spec (Z.of_nat (first_index off) + Z.of_nat (j - first_index off))
                  (Z.of_nat (List.length (args spec)) - Z.of_nat (List.length ds) - 1));
        [reflexivity|lia]. }
  assert (Hr : In n (getRequiredArgs info)).
  { apply (proj1 (entry_reported info n VNoDefault (in_or_app _ _ _ (or_introl Hin)))).
    reflexivity. }
  split; [exact Hr|]. intros Ho. eapply reported_disjoint; eauto.
Qed.

(** [h(a, b, c, t=AUTO_TOPIC, u=None)]: [b] is followed by [c]. *)
Lemma leading_parameter_required_witness :
  In "b" (getRequiredArgs h_info) /\ ~ In "b" (getOptionalArgs h_info).
Proof.
  apply (leading_parameter_required spec_h 0 (Some ["a"]) h_info 1 "b").
  - unfold distinct_names. simpl. solve_NoDup.
  - intros ds E. unfold spec_h, plain in *. simpl in *. inversion E; subst. simpl. lia.
  - reflexivity.
  - unfold first_index. simpl. lia.
  - intros ds E. unfold spec_h, plain in *. simpl in *. inversion E; subst. simpl. lia.
  - simpl. intuition discriminate.
  - reflexivity.
Defined.

Lemma entries_from_const (c : PyVal) (vars : list string) :
  forall i, entries_from (fun _ => c) vars i = map (fun n => (n, c)) vars.
Proof.
  induction vars as [|v rest IH]; intros i; simpl; [reflexivity|].
  now rewrite IH.
Qed.

Lemma filter_required_const (ign : list string) (l : list string) :
  filter (fun kv => is_NO_DEFAULT (snd kv))
    (filter (keep ign) (map (fun n => (n, VNoDefault)) l))
  = map (fun n => (n, VNoDefault)) (filter (not_excluded ign) l) /\
  filter (fun kv => negb (is_NO_DEFAULT (snd kv)))
    (filter (keep ign) (map (fun n => (n, VNoDefault)) l)) = [].
Proof.
  induction l as [|n l [IH1 IH2]]; [auto|].
  cbn [map filter].
  change (keep ign (n, VNoDefault)) with (not_excluded ign n).
  destruct (not_excluded ign n); [|auto].
  cbn [map filter snd is_NO_DEFAULT negb]. now rewrite IH1, IH2.
Qed.

(** X8.  For a signature without any default, construction succeeds for
    every exclusion list: the required names are the parameters after the
    receiver followed by the keyword-only ones, without the excluded names;
    nothing is optional and no auto-topic parameter is recorded. *)
Theorem no_defaults_all_required (spec : FullArgSpec) (off : Z)
    (ignoreArgs : option (list string)) :
  distinct_names spec ->
  defaults spec = None ->
  kwonlydefaults spec = None ->
  exists info,
    CallArgsInfo_init spec off ignoreArgs = Ok info /\
    getRequiredArgs info
    = filter (not_excluded (ign_list ignoreArgs))
        (real_args spec off ++ kwonlyargs spec) /\
    getOptionalArgs info = [] /\
    autoTopicArgName info = None.
Proof.
  intros Hd Hds Hkd.
  destruct (CallArgsInfo_init_total spec off ignoreArgs) as [info H].
  { intros ds E. congruence. }
  { intros kd n w E. congruence. }
  exists info. split; [exact H|].
  destruct (CallArgsInfo_init_inv _ _ _ H) as (a0 & k0 & a1 & k1 & B).
  assert (Ha0 : a0 = map (fun n => (n, VNoDefault)) (real_args spec off)).
  { rewrite (built_stored _ _ _ _ _ _ _ _ Hd ltac:(intros ds E; congruence) B).
    unfold stored_args. rewrite Hds.
    change (value_at (args spec) None) with (fun _ : Z => VNoDefault).
    apply entries_from_const. }
  assert (Hk0 : k0 = map (fun n => (n, VNoDefault)) (kwonlyargs spec)).
  { rewrite (b_k0_exact B (distinct_names_kwonly Hd)). now rewrite Hkd. }
  destruct (built_filtered _ _ _ _ _ _ _ _ Hd B) as [Ea Ek].
  assert (Hnone : autoTopicArgName info = None /\ allArgs info = a1).
  { destruct (built_topic _ _ _ _ _ _ _ _ Hd B)
      as [HN|(y & v & _ & Hy & Hv & _)]; [exact HN|].
    exfalso. apply (b_a1_incl B) in Hy. rewrite Ha0 in Hy.
    apply in_map_iff in Hy. destruct Hy as (m & E & _). inversion E; subst v.
    discriminate. }
  destruct Hnone as [Ht Eargs].
  assert (Efinal : allArgs info ++ allKwargs info
                   = filter (keep (ign_list ignoreArgs))
                       (map (fun n => (n, VNoDefault))
                          (real_args spec off ++ kwonlyargs spec))).
  { rewrite Eargs, (b_kwargs B), Ea, Ek, Ha0, Hk0.
    now rewrite map_app, filter_app. }
  destruct (filter_required_const (ign_list ignoreArgs)
              (real_args spec off ++ kwonlyargs spec)) as [F1 F2].
  unfold getRequiredArgs, getOptionalArgs. rewrite Efinal, F1, F2.
  split; [|split; [reflexivity|exact Ht]].
  rewrite map_map. simpl. apply map_id.
Qed.

(** [plain_listener(a, b, *, c)] with [b] excluded. *)
Lemma no_defaults_all_required_witness :
  exists info,
    CallArgsInfo_init spec_abc 0 (Some ["b"]) = Ok info /\
    getRequiredArgs info = ["a"; "c"] /\
    getOptionalArgs info = [] /\
    autoTopicArgName info = None.
Proof.
  apply (no_defaults_all_required spec_abc 0 (Some ["b"])).
  - unfold distinct_names. simpl. solve_NoDup.
  - reflexivity.
  - reflexivity.
Defined.

Lemma fill_allArgs_ok (spec : FullArgSpec) (off : Z) :
  (forall ds, defaults spec = Some ds -> (1 <= List.length ds)%nat) ->
  exists a0,
    fill_allArgs (args spec) (defaults spec) off (args spec) 0 [] = Ok a0.
Proof.
  intros HD. destruct (Z.gtb_spec off 0) as [Hoff|Hoff].
  - destruct (args spec) as [|r rest] eqn:Ea; [simpl; eauto|].
    rewrite fill_allArgs_skip by lia.
    rewrite fill_allArgs_run; [eauto|reflexivity|lia|].
    intros ds E. split; [auto|]. simpl List.length. lia.
  - rewrite fill_allArgs_run; [eauto| |lia|].
    + destruct (Z.gtb_spec off 0); [lia|]. apply andb_false_r.
    + intros ds E. split; [auto|]. simpl. lia.
Qed.

Lemma setupAutoTopic_scan_raise (items a : Dict.t) (e : exn) :
  setupAutoTopic_scan items a = Raise e ->
  exists y v, e = KeyError y /\ In (y, v) items /\ eq_AUTO_TOPIC v = true /\
              ~ In y (Dict.keys a).
Proof.
  induction items as [|[n w] items IH]; simpl; [discriminate|].
  destruct (eq_AUTO_TOPIC w) eqn:Hw.
  - unfold Dict.del. destruct (Dict.mem n a) eqn:Hm; simpl; [discriminate|].
    intros H. inversion H; subst. exists n, w. repeat split; auto.
    now apply mem_false.
  - intros H. destruct (IH H) as (y & v & ? & ? & ? & ?).
    exists y, v. repeat split; auto.
Qed.

(** X9.  On a signature whose [defaults] is [None] or a non-empty tuple,
    the only exception the constructor raises is the [KeyError] for a
    keyword-only parameter whose declared default is the marker. *)
Theorem construction_failure (spec : FullArgSpec) (off : Z)
    (ignoreArgs : option (list string)) (e : exn) :
  (forall ds, defaults spec = Some ds -> (1 <= List.length ds)%nat) ->
  CallArgsInfo_init spec off ignoreArgs = Raise e ->
  exists y kd v,
    e = KeyError y /\ In y (kwonlyargs spec) /\
    kwonlydefaults spec = Some kd /\ In (y, v) kd /\ eq_AUTO_TOPIC v = true.
Proof.
  intros HD. rewrite CallArgsInfo_init_unfold.
  destruct (fill_allArgs_ok spec off HD) as [a0 Hfill]. rewrite Hfill. simpl bind.
  rewrite fill_allKwargs_run. simpl bind.
  set (k0 := set_all _ []).
  destruct (drop_ignored_run (ign_list ignoreArgs) a0 k0)
    as (a1 & k1 & E & Ia & Ik & Na & Nk & Ra & Rk).
  rewrite E. simpl bind. unfold __setupAutoTopic, _combinedDict. simpl fst. simpl snd.
  destruct (setupAutoTopic_scan (Dict.merge a1 k1) a1) as [r|e'] eqn:Hscan;
    [discriminate|].
  simpl. intros H. inversion H; subst e'. clear H.
  destruct (setupAutoTopic_scan_raise _ _ _ Hscan) as (y & v & Ee & Hin & Hv & Hy).
  unfold Dict.merge in Hin. fold (set_all k1 a1) in Hin.
  apply set_all_In in Hin. destruct Hin as [Hin|Hin];
    [|exfalso; apply Hy; eapply keys_In; eauto].
  apply Ik in Hin. unfold k0 in Hin. apply set_all_In in Hin.
  destruct Hin as [Hin|[]]. apply in_map_iff in Hin. destruct Hin as (n' & E' & Hn).
  inversion E'; subst n'.
  destruct (kw_value_In (kwonlydefaults spec) y) as [E''|(kd & Hkd & Hkin)].
  - rewrite <- H1 in Hv. rewrite E'' in Hv. discriminate.
  - exists y, kd, v. rewrite H1 in Hkin. auto.
Qed.

Lemma construction_failure_witness :
  exists y kd v,
    KeyError "t" = KeyError y /\ In y (kwonlyargs spec_kw_topic) /\
    kwonlydefaults spec_kw_topic = Some kd /\ In (y, v) kd /\
    eq_AUTO_TOPIC v = true.
Proof.
  apply (construction_failure spec_kw_topic 0 None (KeyError "t")).
  - intros ds E. discriminate.
  - reflexivity.
Defined.

(** ** Classification *)

Lemma fill_allArgs_raise (all_args : list string) (dso : option (list PyVal))
    (off : Z) (vars : list string) :
  forall (i : Z) (d : Dict.t) (e : exn),
    fill_allArgs all_args dso off vars i d = Raise e -> e = IndexError.
Proof.
  induction vars as [|v rest IH]; intros i d e H; simpl in H; [discriminate|].
  destruct ((i =? 0) && (off >? 0)); [eauto|].
  destruct dso as [ds|]; [|eauto]. cbv zeta in H.
  destruct (i <? argsDefaults_startsAt all_args ds); [eauto|].
  destruct (py_index ds _) as [val|e'] eqn:Hp; simpl in H; [eauto|].
  inversion H; subst e'. clear H. unfold py_index in Hp. cbv zeta in Hp.
  destruct (_ || _); [now inversion Hp|].
  destruct (nth_error ds _); [discriminate|now inversion Hp].
Qed.

(** The constructor raises nothing but [IndexError] and [KeyError]. *)
Lemma CallArgsInfo_init_raise (spec : FullArgSpec) (off : Z)
    (ignoreArgs : option (list string)) (e : exn) :
  CallArgsInfo_init spec off ignoreArgs = Raise e ->
  e = IndexError \/ exists k, e = KeyError k.
Proof.
  rewrite CallArgsInfo_init_unfold.
  destruct (fill_allArgs _ _ _ _ _ _) as [a0|e0] eqn:Hfill.
  - simpl bind. rewrite fill_allKwargs_run. simpl bind.
    set (k0 := set_all _ []).
    destruct (drop_ignored_run (ign_list ignoreArgs) a0 k0) as (a1 & k1 & E & _).
    rewrite E. simpl bind. unfold __setupAutoTopic, _combinedDict. simpl fst. simpl snd.
    destruct (setupAutoTopic_scan (Dict.merge a1 k1) a1) as [r|e'] eqn:Hscan;
      [discriminate|].
    simpl. intros H. inversion H; subst e'.
    destruct (setupAutoTopic_scan_raise _ _ _ Hscan) as (y & _ & Ee & _). eauto.
  - simpl. intros H. inversion H; subst e0. left. eapply fill_allArgs_raise; eauto.
Qed.

(** X11.  [getArgs] raises a [ListenerMismatchError] exactly for a value
    that is neither a function nor a bound method and has no [__call__];
    the error then carries the name of the value's type as identifier, the
    module of the value, the message [type "<name>" not supported] in the
    standard rendering, and no extra arguments. *)
Theorem mismatch_exactly_unsupported (c : PyObj) (ignoreArgs : option (list string)) :
  (isfunction c = false /\ ismethod c = false /\ hasattr_call c = false ->
   getArgs c ignoreArgs
   = Raise (ListenerMismatchError
              (mkListenerMismatch
                 (rendering (type_name c) (str_of_module (getModule c))
                    (not_supported c))
                 (getModule c) (type_name c) []))) /\
  (forall e, getArgs c ignoreArgs = Raise (ListenerMismatchError e) ->
             isfunction c = false /\ ismethod c = false /\ hasattr_call c = false).
Proof.
  split.
  - intros (Hf & Hm & Hc). destruct c as [f|s f|o]; try discriminate.
    simpl in Hc. unfold getArgs. simpl.
    destruct (call_op o); [discriminate|]. reflexivity.
  - intros e H.
    assert (Hinit : forall spec off,
              CallArgsInfo_init spec off ignoreArgs <> Raise (ListenerMismatchError e)).
    { intros spec off Hi. destruct (CallArgsInfo_init_raise _ _ _ _ Hi) as [E|[k E]];
        discriminate. }
    destruct c as [f|s f|o]; unfold getArgs in H; simpl in H.
    + exfalso. eapply Hinit; eauto.
    + exfalso. eapply Hinit; eauto.
    + simpl. destruct (call_op o); [exfalso; eapply Hinit; eauto|]. auto.
Qed.

Lemma mismatch_exactly_unsupported_witness :
  getArgs plain_value None
  = Raise (ListenerMismatchError
             (mkListenerMismatch
                (rendering "Plain" "app" (not_supported plain_value))
                (Some "app") "Plain" [])).
Proof.
  apply (proj1 (mismatch_exactly_unsupported plain_value None)).
  repeat split.
Defined.

(** X12.  [_versionCheck] holds exactly for the versions from 3.5 on. *)
Theorem versionCheck_from_3_5 (major minor : Z) :
  _versionCheck major minor = true <->
  (3 < major \/ (major = 3 /\ 5 <= minor)).
Proof.
  unfold _versionCheck.
  destruct (Z.gtb_spec major 3) as [Ha|Ha], (Z.eqb_spec major 3) as [Hb|Hb],
           (Z.gtb_spec minor 4) as [Hc|Hc];
    simpl; split; intros Hx; try reflexivity; try discriminate; lia.
Qed.

(** ** Order of the reported names and the exclusion list *)

Lemma filter_filter_and {A : Type} (f g : A -> bool) (l : list A) :
  filter f (filter g l) = filter (fun x => g x && f x) l.
Proof.
  induction l as [|a l IH]; simpl; [reflexivity|].
  destruct (g a); simpl; [|exact IH]. destruct (f a); now rewrite IH.
Qed.

Lemma remove_filter (d : Dict.t) (y : string) :
  NoDup (Dict.keys d) ->
  Dict.remove d y = filter (fun e => negb (String.eqb y (fst e))) d.
Proof.
  induction d as [|[k v] d IH]; intros Hnd; simpl; [reflexivity|].
  inversion Hnd as [|? ? Hnotin Hnd']; subst.
  destruct (String.eqb_spec y k) as [->|Hne]; simpl.
  - symmetry. rewrite <- (filter_true d) at 2. apply filter_ext_in.
    intros [k' v'] Hin. simpl. destruct (String.eqb_spec k k') as [->|]; [|reflexivity].
    exfalso. apply Hnotin. eapply keys_In; eauto.
  - now rewrite IH.
Qed.

Lemma filter_absent_key (d : Dict.t) (y : string) :
  ~ In y (Dict.keys d) ->
  filter (fun e => negb (String.eqb y (fst e))) d = d.
Proof.
  intros Hy. rewrite <- (filter_true d) at 2. apply filter_ext_in.
  intros [k v] Hin. simpl. destruct (String.eqb_spec y k) as [->|]; [|reflexivity].
  exfalso. apply Hy. eapply keys_In; eauto.
Qed.

(** The entries of a descriptor are the entries written by the two loops,
    in the same order, without those dropped since. *)
Lemma built_final_filter (spec : FullArgSpec) (off : Z) (ign : list string)
    (info : CallArgsInfo) (a0 k0 a1 k1 : Dict.t) :
  distinct_names spec ->
  built spec off ign info a0 k0 a1 k1 ->
  exists R, allArgs info ++ allKwargs info = filter R (a0 ++ k0).
Proof.
  intros Hd B. destruct (built_filtered _ _ _ _ _ _ _ _ Hd B) as [Ea Ek].
  destruct (built_topic _ _ _ _ _ _ _ _ Hd B)
    as [[_ E]|(y & v & _ & Hy & _ & E)].
  - exists (keep ign). now rewrite E, (b_kwargs B), Ea, Ek, filter_app.
  - exists (fun e => keep ign e && negb (String.eqb y (fst e))).
    rewrite <- filter_filter_and, filter_app, <- Ea, <- Ek, filter_app.
    rewrite E, (b_kwargs B), (remove_filter a1 y (b_a1_NoDup B)).
    f_equal. symmetry. apply filter_absent_key.
    intros Hk. apply (built_disjoint1 _ _ _ _ _ _ _ _ Hd B y Hk).
    eapply keys_In; eauto.
Qed.

Lemma filter_keys_in_order (E : Dict.t) (S : string * PyVal -> bool) :
  NoDup (Dict.keys E) ->
  map fst (filter S E)
  = filter (fun n => existsb (String.eqb n) (map fst (filter S E))) (Dict.keys E).
Proof.
  induction E as [|[k v] E IH]; intros Hnd; [reflexivity|].
  simpl in Hnd. inversion Hnd as [|? ? Hnotin Hnd']; subst.
  assert (Hsub : forall n, In n (map fst (filter S E)) -> In n (Dict.keys E)).
  { intros n. apply filter_keys_incl. }
  cbn [filter Dict.keys map fst]. destruct (S (k, v)).
  - cbn [map fst filter existsb]. rewrite String.eqb_refl. cbn [orb]. f_equal.
    rewrite IH at 1 by assumption. apply filter_ext_in.
    intros n Hn. destruct (String.eqb_spec n k) as [->|]; [|reflexivity].
    contradiction.
  - assert (Hk : existsb (String.eqb k) (map fst (filter S E)) = false).
    { destruct (existsb _ _) eqn:Ex; [|reflexivity]. exfalso.
      apply existsb_exists in Ex. destruct Ex as (x & Hx & Ex).
      apply String.eqb_eq in Ex. subst x. apply Hnotin. now apply Hsub. }
    rewrite Hk. now apply IH.
Qed.

(** X13.  [getRequiredArgs] and [getOptionalArgs] list their names in the
    order of [getAllArgs]: each is [getAllArgs] without the names that are
    not in it. *)
Theorem reported_in_declaration_order (spec : FullArgSpec) (off : Z)
    (ignoreArgs : option (list string)) (info : CallArgsInfo) :
  distinct_names spec ->
  CallArgsInfo_init spec off ignoreArgs = Ok info ->
  getRequiredArgs info
  = filter (fun n => existsb (String.eqb n) (getRequiredArgs info)) (getAllArgs info) /\
  getOptionalArgs info
  = filter (fun n => existsb (String.eqb n) (getOptionalArgs info)) (getAllArgs info).
Proof.
  intros Hd H.
  destruct (CallArgsInfo_init_inv _ _ _ H) as (a0 & k0 & a1 & k1 & B).
  destruct (built_final_filter _ _ _ _ _ _ _ _ Hd B) as [R ER].
  assert (Hkeys : getAllArgs info = Dict.keys (a0 ++ k0)).
  { unfold getAllArgs, Dict.keys. rewrite (b_params B). now rewrite map_app. }
  assert (Hnd : NoDup (Dict.keys (a0 ++ k0))).
  { rewrite <- Hkeys. unfold getAllArgs. rewrite (allParams_names _ _ _ _ Hd H).
    apply NoDup_app.
    - apply real_args_NoDup. now apply distinct_names_args.
    - now apply distinct_names_kwonly.
    - intros x Hx. apply real_args_incl in Hx. now apply distinct_names_disjoint. }
  unfold getRequiredArgs, getOptionalArgs.
  rewrite ER, Hkeys, !filter_filter_and.
  split; now apply filter_keys_in_order.
Qed.

Lemma reported_in_declaration_order_witness :
  getRequiredArgs h_info
  = filter (fun n => existsb (String.eqb n) (getRequiredArgs h_info)) (getAllArgs h_info) /\
  getOptionalArgs h_info
  = filter (fun n => existsb (String.eqb n) (getOptionalArgs h_info)) (getAllArgs h_info).
Proof.
  apply (reported_in_declaration_order spec_h 0 (Some ["a"]) h_info).
  - unfold distinct_names. simpl. solve_NoDup.
  - reflexivity.
Defined.

Lemma not_excluded_ext (ign ign' : list string) (n : string) :
  (forall x, In x ign <-> In x ign') ->
  not_excluded ign n = not_excluded ign' n.
Proof.
  intros Hsame.
  pose proof (not_excluded_In ign n) as H1. pose proof (not_excluded_In ign' n) as H2.
  destruct (not_excluded ign n), (not_excluded ign' n); try reflexivity.
  - exfalso. assert (Hn : ~ In n ign) by now apply H1.
    assert (Hf : ~ ~ In n ign').
    { intros Hc. apply H2 in Hc. discriminate. }
    apply Hf. intros Hin. apply Hn. now apply Hsame.
  - exfalso. assert (Hn : ~ In n ign') by now apply H2.
    assert (Hf : ~ ~ In n ign).
    { intros Hc. apply H1 in Hc. discriminate. }
    apply Hf. intros Hin. apply Hn. now apply Hsame.
Qed.

Lemma name_in_ext (name : option string) (ign ign' : list string) :
  (forall x, In x ign <-> In x ign') ->
  name_in name ign = name_in name ign'.
Proof.
  intros Hsame. destruct name as [n|]; [|reflexivity]. simpl.
  pose proof (not_excluded_ext ign ign' n Hsame) as E. unfold not_excluded in E.
  destruct (existsb (String.eqb n) ign), (existsb (String.eqb n) ign');
    simpl in E; congruence.
Qed.

(** X14.  Only the set of excluded names matters: two exclusion lists with
    the same entries, in any order and with any repetition, give the same
    result. *)
Theorem exclusion_list_as_set (spec : FullArgSpec) (off : Z)
    (ign ign' : list string) :
  distinct_names spec ->
  (forall x, In x ign <-> In x ign') ->
  CallArgsInfo_init spec off (Some ign) = CallArgsInfo_init spec off (Some ign').
Proof.
  intros Hd Hsame. rewrite !CallArgsInfo_init_unfold. simpl ign_list.
  destruct (fill_allArgs _ _ _ _ _ _) as [a0|e] eqn:Hfill; [|reflexivity].
  simpl bind. rewrite fill_allKwargs_run. simpl bind.
  set (k0 := set_all _ []).
  destruct (fill_allArgs_shape _ _ _ _ _ (Z.le_refl 0) Hfill) as [es [Ees Hes]].
  rewrite real_args_effective in Hes.
  assert (Na : NoDup (Dict.keys a0)).
  { rewrite Ees. apply set_all_keys_NoDup. constructor. }
  assert (Nk : NoDup (Dict.keys k0)).
  { apply set_all_keys_NoDup. constructor. }
  assert (Hdis : forall x, In x (Dict.keys k0) -> ~ In x (Dict.keys a0)).
  { intros x Hk Ha.
    destruct (set_all_keys_incl _ _ _ Hk) as [[]|Hk'].
    rewrite map_map in Hk'. simpl in Hk'. rewrite map_id in Hk'.
    rewrite Ees in Ha. destruct (set_all_keys_incl _ _ _ Ha) as [[]|Ha'].
    rewrite Hes in Ha'. apply real_args_incl in Ha'.
    now apply (distinct_names_disjoint x Hd). }
  rewrite !(drop_ignored_filter _ a0 k0 Na Nk Hdis).
  rewrite (name_in_ext (varkw spec) ign ign' Hsame).
  rewrite (name_in_ext (varargs spec) ign ign' Hsame).
  assert (Hf : forall d, filter (keep ign) d = filter (keep ign') d).
  { intros d. apply filter_ext. intros e. unfold keep.
    now apply not_excluded_ext. }
  now rewrite !Hf.
Qed.

Lemma exclusion_list_as_set_witness :
  CallArgsInfo_init spec_h 0 (Some ["u"; "a"; "u"])
  = CallArgsInfo_init spec_h 0 (Some ["a"; "u"]).
Proof.
  apply (exclusion_list_as_set spec_h 0 ["u"; "a"; "u"] ["a"; "u"]).
  - unfold distinct_names. simpl. solve_NoDup.
  - intros x. simpl. tauto.
Defined.

Lemma required_of_built (spec : FullArgSpec) (off : Z) (ign : list string)
    (info : CallArgsInfo) (a0 k0 a1 k1 : Dict.t) :
  distinct_names spec ->
  built spec off ign info a0 k0 a1 k1 ->
  getRequiredArgs info
  = map fst (filter (fun kv => is_NO_DEFAULT (snd kv))
               (filter (keep ign) (a0 ++ k0))).
Proof.
  intros Hd B. destruct (built_filtered _ _ _ _ _ _ _ _ Hd B) as [Ea Ek].
  unfold getRequiredArgs. rewrite (b_kwargs B).
  rewrite (filter_app (keep ign)), <- Ea, <- Ek. rewrite !filter_app. do 2 f_equal.
  destruct (built_topic _ _ _ _ _ _ _ _ Hd B)
    as [[_ E]|(y & v & _ & Hy & Hv & E)]; rewrite E; [reflexivity|].
  apply filter_remove with (v := v); [apply (b_a1_NoDup B)|exact Hy|].
  simpl. now apply eq_AUTO_TOPIC_has_default.
Qed.

Lemma required_filter_keep (ign : list string) (E : Dict.t) :
  map fst (filter (fun kv => is_NO_DEFAULT (snd kv)) (filter (keep ign) E))
  = filter (not_excluded ign)
      (map fst (filter (fun kv => is_NO_DEFAULT (snd kv)) E)).
Proof.
  induction E as [|[k v] E IH]; [reflexivity|].
  cbn [filter]. change (keep ign (k, v)) with (not_excluded ign k).
  cbn [snd]. destruct (not_excluded ign k) eqn:Hk, (is_NO_DEFAULT v) eqn:Hv;
    cbn [filter map fst snd]; rewrite ?Hk, ?Hv; cbn [map fst]; rewrite ?Hk;
    now rewrite IH.
Qed.

(** X15.  Exclusion acts on the required names as a filter: the required
    names with an exclusion list are the required names without it, minus
    the excluded ones and in the same order, and [numRequired] counts
    them. *)
Theorem required_under_exclusion (spec : FullArgSpec) (off : Z)
    (ignoreArgs : option (list string)) (excl full : CallArgsInfo) :
  distinct_names spec ->
  CallArgsInfo_init spec off ignoreArgs = Ok excl ->
  CallArgsInfo_init spec off None = Ok full ->
  getRequiredArgs excl
  = filter (not_excluded (ign_list ignoreArgs)) (getRequiredArgs full) /\
  numRequired excl
  = Z.of_nat (List.length
      (filter (not_excluded (ign_list ignoreArgs)) (getRequiredArgs full))).
Proof.
  intros Hd H1 H0.
  destruct (CallArgsInfo_init_inv _ _ _ H1) as (a0 & k0 & a1 & k1 & B1).
  destruct (CallArgsInfo_init_inv _ _ _ H0) as (a0' & k0' & a1' & k1' & B0).
  assert (Ea : a0' = a0).
  { pose proof (b_fill B1) as F1. pose proof (b_fill B0) as F0.
    rewrite F1 in F0. now inversion F0. }
  assert (Ek : k0' = k0) by (rewrite (b_kw B0), (b_kw B1); reflexivity).
  subst a0' k0'.
  assert (Ereq : getRequiredArgs excl
                 = filter (not_excluded (ign_list ignoreArgs)) (getRequiredArgs full)).
  { rewrite (required_of_built _ _ _ _ _ _ _ _ Hd B1).
    rewrite (required_of_built _ _ _ _ _ _ _ _ Hd B0).
    rewrite !required_filter_keep. simpl ign_list.
    f_equal. symmetry.
    rewrite <- (filter_true (map fst _)) at 2. apply filter_ext. reflexivity. }
  split; [exact Ereq|]. rewrite <- Ereq.
  pose proof (b_num B1) as Hn. rewrite Hn. f_equal.
  rewrite (required_of_built _ _ _ _ _ _ _ _ Hd B1).
  destruct (built_filtered _ _ _ _ _ _ _ _ Hd B1) as [Fa Fk].
  rewrite length_map, (filter_app (keep _)), <- Fa, <- Fk.
  unfold Dict.values. rewrite <- map_app.
  generalize (a1 ++ k1). intros l.
  induction l as [|[n w] l IH]; simpl; [reflexivity|].
  destruct (is_NO_DEFAULT w); simpl; now rewrite IH.
Qed.

(** [h(a, b, c, t=AUTO_TOPIC, u=None)]: without exclusion [a] and [b] are
    required, with [a] excluded only [b]. *)
Lemma required_under_exclusion_witness :
  exists full,
    CallArgsInfo_init spec_h 0 None = Ok full /\
    getRequiredArgs full = ["a"; "b"] /\
    getRequiredArgs h_info = filter (not_excluded ["a"]) (getRequiredArgs full) /\
    numRequired h_info
    = Z.of_nat (List.length (filter (not_excluded ["a"]) (getRequiredArgs full))).
Proof.
  assert (Hd : distinct_names spec_h) by (unfold distinct_names; simpl; solve_NoDup).
  eexists. split; [reflexivity|]. split; [reflexivity|].
  exact (required_under_exclusion spec_h 0 (Some ["a"]) h_info _ Hd eq_refl eq_refl).
Defined.

(** ** [_combinedDict] *)

Lemma get_set (d : Dict.t) (k x : string) (v : PyVal) :
  Dict.get (Dict.set d k v) x
  = if String.eqb x k then Ok v else Dict.get d x.
Proof.
  induction d as [|[k' v'] d IH]; simpl.
  - destruct (String.eqb_spec x k) as [->|Hne]; [reflexivity|].
    destruct (String.eqb_spec x k); [contradiction|reflexivity].
  - destruct (String.eqb_spec k k') as [->|Hne]; simpl.
    + destruct (String.eqb x k'); reflexivity.
    + rewrite IH. destruct (String.eqb_spec x k') as [->|Hne'].
      * destruct (String.eqb_spec k' k); [congruence|reflexivity].
      * reflexivity.
Qed.

(** X16.  In the combined dictionary a name that is a key of [allKwargs]
    has the value it has there, any other name the value it has in
    [allArgs], and a name that is a key of neither raises [KeyError]. *)
Theorem combinedDict_lookup (a k : Dict.t) (x : string) :
  NoDup (Dict.keys k) ->
  Dict.get (_combinedDict a k) x
  = if Dict.mem x k then Dict.get k x else Dict.get a x.
Proof.
  unfold _combinedDict, Dict.merge. revert a.
  induction k as [|[n w] k IH]; intros a Hnd; [reflexivity|].
  simpl in Hnd. inversion Hnd as [|? ? Hnotin Hnd']; subst.
  cbn [fold_left fst snd]. rewrite IH by assumption.
  rewrite get_set. cbn [Dict.mem existsb fst Dict.get].
  fold (Dict.mem x k).
  destruct (String.eqb_spec x n) as [->|Hne]; cbn [orb]; [|reflexivity].
  apply mem_false in Hnotin. now rewrite Hnotin.
Qed.

Lemma combinedDict_lookup_witness :
  Dict.get (_combinedDict [("a", VInt 1); ("b", VNone)] [("c", VInt 2)]) "c"
  = Ok (VInt 2) /\
  Dict.get (_combinedDict [("a", VInt 1); ("b", VNone)] [("c", VInt 2)]) "b"
  = Ok VNone /\
  Dict.get (_combinedDict [("a", VInt 1); ("b", VNone)] [("c", VInt 2)]) "z"
  = Raise (KeyError "z").
Proof.
  assert (Hnd : NoDup (Dict.keys [("c", VInt 2)])) by (simpl; solve_NoDup).
  split; [|split].
  - exact (combinedDict_lookup [("a", VInt 1); ("b", VNone)] [("c", VInt 2)] "c" Hnd).
  - exact (combinedDict_lookup [("a", VInt 1); ("b", VNone)] [("c", VInt 2)] "b" Hnd).
  - exact (combinedDict_lookup [("a", VInt 1); ("b", VNone)] [("c", VInt 2)] "z" Hnd).
Defined.
